(** * Sprint report generation: a shallow embedding of the Jira client and
    of the report generator, and the properties of their specification.

    Sources embedded here:
    - [jira_client.py]: [JiraClient.search_issues], [JiraClient.parse_issue],
      [JiraClient.group_issues_by_parent];
    - [generate_api_report.py]: [SprintReportGenerator.fetch_sprint_data],
      [determine_epic_status], [generate_epic_summary] and the table rows of
      [generate_markdown_report].

    Modelling conventions.
    - A Python [str] is a [string]; [str.lower] is lower-casing of the letters
      [A]..[Z] (no other character lower-cases to a letter of the keywords the
      code compares with).
    - A decoded JSON document is a [pyval]; a [dict] is an association list
      read by its first binding of a key.
    - A Python exception is a [Raise] result of the error monad [result].
    - The [epics] dictionary of the grouping is an insertion-ordered
      association list, because the report iterates over it. *)

From Stdlib Require Import ZArith Ascii String.
From stdpp Require Import gmap strings list fin_maps pretty sorting.

Set Warnings "-register-all".

(** ** Python values and exceptions *)

Module Py.

(** A value of a decoded JSON document: [None], a [bool], a number (the
    code reads no number but the page total, an integer), a [str], a [list]
    or a [dict]. *)
Inductive pyval : Type :=
| PNone
| PBool (b : bool)
| PInt (z : Z)
| PStr (s : string)
| PList (l : list pyval)
| PDict (d : list (string * pyval)).

Inductive exn : Type :=
| AttributeError
| RequestException.

Inductive result (A : Type) : Type :=
| Ok (a : A)
| Raise (e : exn).
Arguments Ok {A} a.
Arguments Raise {A} e.

Definition bind {A B : Type} (m : result A) (f : A -> result B) : result B :=
  match m with
  | Ok a => f a
  | Raise e => Raise e
  end.

#[global] Instance result_bind : MBind result :=
  fun A B f m => bind m f.

(** [bool(v)]: the truth value Python gives to a value in a condition. *)
Definition truthy (v : pyval) : bool :=
  match v with
  | PNone => false
  | PBool b => b
  | PInt z => negb (z =? 0)%Z
  | PStr s => negb (String.eqb s "")
  | PList l => match l with [] => false | _ => true end
  | PDict d => match d with [] => false | _ => true end
  end.

(** The binding of a key in a dictionary. *)
Fixpoint dict_lookup (d : list (string * pyval)) (k : string) : option pyval :=
  match d with
  | [] => None
  | (k', v) :: d' => if String.eqb k' k then Some v else dict_lookup d' k
  end.

(** [d.get(k, default)] on a dictionary. *)
Definition dict_get (d : list (string * pyval)) (k : string) (default : pyval)
  : pyval :=
  match dict_lookup d k with
  | Some v => v
  | None => default
  end.

(** [v.get(k, default)] on any value: only a dictionary has the method. *)
Definition get (v : pyval) (k : string) (default : pyval) : result pyval :=
  match v with
  | PDict d => Ok (dict_get d k default)
  | _ => Raise AttributeError
  end.

(** [v == s] for a string literal [s]. *)
Definition eq_str (v : pyval) (s : string) : bool :=
  match v with
  | PStr s' => String.eqb s' s
  | _ => false
  end.

Definition is_str (v : pyval) : bool :=
  match v with
  | PStr _ => true
  | _ => false
  end.

Definition empty_dict : pyval := PDict [].
Definition empty_str : pyval := PStr "".

End Py.

Import Py.

(** ** Python strings *)

Module Str.

Definition is_upper (c : ascii) : bool :=
  let n := nat_of_ascii c in (65 <=? n) && (n <=? 90).
Definition is_lower (c : ascii) : bool :=
  let n := nat_of_ascii c in (97 <=? n) && (n <=? 122).
Definition is_digit (c : ascii) : bool :=
  let n := nat_of_ascii c in (48 <=? n) && (n <=? 57).
(** The characters [str.isspace] and the pattern [\s] accept. *)
Definition is_space (c : ascii) : bool :=
  let n := nat_of_ascii c in
  ((9 <=? n) && (n <=? 13)) || ((28 <=? n) && (n <=? 32)).

Definition lower_ascii (c : ascii) : ascii :=
  if is_upper c then ascii_of_nat (nat_of_ascii c + 32) else c.
Definition upper_ascii (c : ascii) : ascii :=
  if is_lower c then ascii_of_nat (nat_of_ascii c - 32) else c.

(** [s.lower()] *)
Fixpoint lower (s : string) : string :=
  match s with
  | EmptyString => EmptyString
  | String c s' => String (lower_ascii c) (lower s')
  end.

(** [needle in hay] *)
Fixpoint contains (needle hay : string) : bool :=
  String.prefix needle hay ||
  match hay with
  | EmptyString => false
  | String _ hay' => contains needle hay'
  end.

(** [bool(s)] and [a or b] on strings. *)
Definition truthy (s : string) : bool := negb (String.eqb s "").
Definition or (a b : string) : string := if truthy a then a else b.

(** [a or b] where [a] comes from [d.get(k)]: [None] when [k] is absent. *)
Definition or_opt (a : option string) (b : string) : string :=
  match a with
  | Some s => or s b
  | None => b
  end.

(** [s.strip()] *)
Fixpoint lstrip (s : list ascii) : list ascii :=
  match s with
  | c :: s' => if is_space c then lstrip s' else s
  | [] => []
  end.
Definition strip (s : string) : string :=
  string_of_list_ascii
    (rev (lstrip (rev (lstrip (list_ascii_of_string s))))).

(** The text before and after the last occurrence of [sep] in [s]: the
    first component is [None] when [sep] does not occur. *)
Fixpoint split_last (sep : ascii) (s : list ascii)
  : option (list ascii) * list ascii :=
  match s with
  | [] => (None, [])
  | c :: s' =>
      match split_last sep s' with
      | (Some before, after) => (Some (c :: before), after)
      | (None, after) =>
          if Ascii.eqb c sep then (Some [], after) else (None, c :: after)
      end
  end.

(** [s.rsplit(' ', 1)] *)
Definition rsplit_space (s : string) : list string :=
  match split_last " "%char (list_ascii_of_string s) with
  | (Some before, after) =>
      [string_of_list_ascii before; string_of_list_ascii after]
  | (None, after) => [string_of_list_ascii after]
  end.

(** [s.split('-')[-1]] *)
Definition after_last_hyphen (s : string) : string :=
  string_of_list_ascii (snd (split_last "-"%char (list_ascii_of_string s))).

(** [s.title()]: a letter that follows a letter is lower-cased, any other
    letter is upper-cased. *)
Fixpoint title_from (previous_is_cased : bool) (s : string) : string :=
  match s with
  | EmptyString => EmptyString
  | String c s' =>
      if is_lower c then
        String (if previous_is_cased then c else upper_ascii c)
               (title_from true s')
      else if is_upper c then
        String (if previous_is_cased then lower_ascii c else c)
               (title_from true s')
      else String c (title_from false s')
  end.
Definition title (s : string) : string := title_from false s.

(** [sorted(l)] on strings, as a stable insertion sort. *)
Fixpoint insert_sorted (x : string) (l : list string) : list string :=
  match l with
  | [] => [x]
  | y :: l' => if String.ltb x y then x :: l else y :: insert_sorted x l'
  end.
Definition sorted (l : list string) : list string :=
  fold_left (fun acc x => insert_sorted x acc) l [].

(** [str(n)] for a count. *)
Definition of_nat (n : nat) : string := pretty n.

End Str.

(** ** Regular expressions of [re], by backtracking *)

Module Re.

Inductive re : Type :=
| Chr (p : ascii -> bool)
| Seq (a b : re)
| Opt (a : re)
| Star (a : re)
| Group (n : nat) (a : re).

Definition Plus (a : re) : re := Seq a (Star a).
Definition Lit (c : ascii) : re := Chr (Ascii.eqb c).
Definition Not (c : ascii) : re := Chr (fun x => negb (Ascii.eqb c x)).

Definition captures : Type := list (nat * list ascii).

(** [rmatch r s caps k]: match [r] at the head of [s], greedily, and go on
    with [k] on the rest; a failure of [k] makes the match backtrack. *)
Fixpoint rmatch {R : Type} (r : re) (s : list ascii) (caps : captures)
    (k : list ascii -> captures -> option R) : option R :=
  match r with
  | Chr p =>
      match s with
      | c :: s' => if p c then k s' caps else None
      | [] => None
      end
  | Seq a b => rmatch a s caps (fun s' caps' => rmatch b s' caps' k)
  | Opt a =>
      match rmatch a s caps k with
      | Some x => Some x
      | None => k s caps
      end
  | Star a =>
      (fix loop (fuel : nat) (s : list ascii) (caps : captures) : option R :=
         match fuel with
         | O => k s caps
         | S fuel' =>
             match rmatch a s caps (fun s' caps' =>
                     if length s' <? length s then loop fuel' s' caps'
                     else None) with
             | Some x => Some x
             | None => k s caps
             end
         end) (length s) s caps
  | Group n a =>
      rmatch a s caps (fun s' caps' =>
        k s' ((n, take (length s - length s') s) :: caps'))
  end.

(** [re.search(r, s)]: the groups of the leftmost match. *)
Fixpoint search_from (r : re) (s : list ascii) : option captures :=
  match rmatch r s [] (fun _ caps => Some caps) with
  | Some caps => Some caps
  | None =>
      match s with
      | [] => None
      | _ :: s' => search_from r s'
      end
  end.
Definition search (r : re) (s : string) : option captures :=
  search_from r (list_ascii_of_string s).

(** [m.group(n)] *)
Fixpoint group (m : captures) (n : nat) : string :=
  match m with
  | [] => ""
  | (n', text) :: m' =>
      if Nat.eqb n' n then string_of_list_ascii text else group m' n
  end.

End Re.

(** ** Insertion-ordered dictionaries with string keys *)

Module OrderedDict.
Section ordered_dict.
Context {V : Type}.

(** [d.get(k)] *)
Fixpoint get (d : list (string * V)) (k : string) : option V :=
  match d with
  | [] => None
  | (k', v) :: d' => if String.eqb k' k then Some v else get d' k
  end.

(** [k in d] *)
Definition mem (d : list (string * V)) (k : string) : bool :=
  match get d k with
  | Some _ => true
  | None => false
  end.

(** [d[k] = v]: a key already in [d] keeps its place. *)
Fixpoint set (d : list (string * V)) (k : string) (v : V)
  : list (string * V) :=
  match d with
  | [] => [(k, v)]
  | (k', v') :: d' =>
      if String.eqb k' k then (k', v) :: d' else (k', v') :: set d' k v
  end.

(** [f(d[k])] for an [f] that updates the value in place. *)
Fixpoint alter (f : V -> V) (d : list (string * V)) (k : string)
  : list (string * V) :=
  match d with
  | [] => []
  | (k', v') :: d' =>
      if String.eqb k' k then (k', f v') :: d' else (k', v') :: alter f d' k
  end.

End ordered_dict.
End OrderedDict.

(** ** The normalized issue *)

(** The dictionary [parse_issue] returns, as a record of its fourteen keys.
    [V] is the type of the values: [pyval] for what [parse_issue] produces,
    [string] for the issues the grouping and the report work on. *)
Record IssueOf (V : Type) : Type := mkIssue {
  key : V;
  summary : V;
  description : V;
  status : V;
  status_category : V;
  issuetype : V;
  epic_link : V;
  epic_name : V;
  parent_key : V;
  parent_summary : V;
  assignee : V;
  created : V;
  updated : V;
  sprint : V
}.
Arguments mkIssue {V}.
Arguments key {V}.
Arguments summary {V}.
Arguments description {V}.
Arguments status {V}.
Arguments status_category {V}.
Arguments issuetype {V}.
Arguments epic_link {V}.
Arguments epic_name {V}.
Arguments parent_key {V}.
Arguments parent_summary {V}.
Arguments assignee {V}.
Arguments created {V}.
Arguments updated {V}.
Arguments sprint {V}.

Abbreviation Issue := (IssueOf string).

(** [issue['issuetype'] == 'Epic'] *)
Definition is_epic (issue : Issue) : bool :=
  String.eqb (issuetype issue) "Epic".

(** The values of all the keys, in the order of the dictionary literal. *)
Definition issue_values {V : Type} (i : IssueOf V) : list V :=
  [key i; summary i; description i; status i; status_category i; issuetype i;
   epic_link i; epic_name i; parent_key i; parent_summary i; assignee i;
   created i; updated i; sprint i].

Definition all_strings (i : IssueOf pyval) : bool :=
  forallb is_str (issue_values i).

(** The dictionary of one epic. The grouping creates it with the keys
    [epic_key], [epic_name] and [children]; the report also reads
    [epic_data.get('status')], a key no code sets: [status] is [None]
    when the key is absent. *)
Module EpicGroup.
Record t : Type := mk {
  epic_key : string;
  epic_name : string;
  children : list Issue;
  status : option string
}.
Definition set_children (g : t) (cs : list Issue) : t :=
  {| epic_key := epic_key g; epic_name := epic_name g;
     children := cs; status := status g |}.
End EpicGroup.

(** The dictionary [group_issues_by_parent] returns, to which
    [fetch_sprint_data] adds the key [epic_details]. *)
Record GroupedResult : Type := mkGrouped {
  epics : list (string * EpicGroup.t);
  standalone : list Issue;
  epic_details : option (gmap string Issue)
}.

(** ** jira_client.py *)

Module JiraClient.

(** *** search_issues *)

(** What one [session.get] followed by [raise_for_status] and [json] gives:
    a [requests.exceptions.RequestException], or the decoded body, of which
    the code reads the keys [issues] and [total] (either may be absent). *)
Inductive response : Type :=
| Failed
| Page (issues : option (list pyval)) (total : option Z).

(** The [while True] loop of [search_issues]. [http_get start_at] is the
    answer of the server to the request with offset [start_at] (the query and
    the page size do not change during one call). The loop has no bound of
    its own, so the model takes fuel: [None] is "still running". *)
Fixpoint search_loop (fuel : nat) (http_get : Z -> response)
    (start_at : Z) (all_issues : list pyval) : option (result (list pyval)) :=
  match fuel with
  | O => None
  | S fuel' =>
      match http_get start_at with
      | Failed => Some (Raise RequestException)
      | Page oissues ototal =>
          let issues := default [] oissues in
          let all_issues := all_issues ++ issues in
          let total := default 0%Z ototal in
          let n := Z.of_nat (length issues) in
          if (start_at + n >=? total)%Z || (n =? 0)%Z
          then Some (Ok all_issues)
          else search_loop fuel' http_get (start_at + n)%Z all_issues
      end
  end.

(** [search_issues]: the loop inside [try], and the handler that turns a
    [RequestException] into the empty list. *)
Definition search_issues (fuel : nat) (http_get : Z -> response)
  : option (result (list pyval)) :=
  match search_loop fuel http_get 0%Z [] with
  | None => None
  | Some (Ok all_issues) => Some (Ok all_issues)
  | Some (Raise RequestException) => Some (Ok [])
  | Some (Raise e) => Some (Raise e)
  end.

(** The issues accumulated in [all_issues] by the pages fetched before the
    first failing fetch ([None] when no fetch fails within the fuel): what a
    "failure means no more pages" reading of the loop would return. *)
Fixpoint accumulated_at_failure (fuel : nat) (http_get : Z -> response)
    (start_at : Z) (all_issues : list pyval) : option (list pyval) :=
  match fuel with
  | O => None
  | S fuel' =>
      match http_get start_at with
      | Failed => Some all_issues
      | Page oissues ototal =>
          let issues := default [] oissues in
          let all_issues := all_issues ++ issues in
          let total := default 0%Z ototal in
          let n := Z.of_nat (length issues) in
          if (start_at + n >=? total)%Z || (n =? 0)%Z
          then None
          else accumulated_at_failure fuel' http_get (start_at + n)%Z all_issues
      end
  end.

(** *** parse_issue *)

Definition parse_issue (issue : pyval) : result (IssueOf pyval) :=
  fields ← get issue "fields" empty_dict;
  parent ← get fields "parent" empty_dict;
  is_epic_parent ←
    (if truthy parent then
       pf ← get parent "fields" empty_dict;
       pt ← get pf "issuetype" empty_dict;
       pn ← get pt "name" PNone;
       Ok (eq_str pn "Epic")
     else Ok false);
  epic_link0 ←
    (if is_epic_parent : bool then get parent "key" empty_str
     else Ok empty_str);
  epic_link1 ←
    (if negb (truthy epic_link0) then get fields "customfield_10014" empty_str
     else Ok epic_link0);
  epic_name1 ← get fields "customfield_10011" empty_str;
  sprint_field ← get fields "customfield_10020" (PList []);
  sprint_name ←
    (if truthy sprint_field then
       match sprint_field with
       | PList (first :: _) => get first "name" empty_str
       | _ => Ok empty_str
       end
     else Ok empty_str);
  v_key ← get issue "key" empty_str;
  v_summary ← get fields "summary" empty_str;
  v_description ← get fields "description" empty_str;
  st ← get fields "status" empty_dict;
  v_status ← get st "name" empty_str;
  st' ← get fields "status" empty_dict;
  sc ← get st' "statusCategory" empty_dict;
  v_status_category ← get sc "name" empty_str;
  it ← get fields "issuetype" empty_dict;
  v_issuetype ← get it "name" empty_str;
  v_parent_key ←
    (if truthy parent then get parent "key" empty_str else Ok empty_str);
  v_parent_summary ←
    (if truthy parent then
       pf ← get parent "fields" empty_dict;
       get pf "summary" empty_str
     else Ok empty_str);
  v_assignee ←
    (a ← get fields "assignee" PNone;
     if truthy a then
       a' ← get fields "assignee" empty_dict;
       get a' "displayName" empty_str
     else Ok empty_str);
  v_created ← get fields "created" empty_str;
  v_updated ← get fields "updated" empty_str;
  Ok {| key := v_key;
        summary := v_summary;
        description := v_description;
        status := v_status;
        status_category := v_status_category;
        issuetype := v_issuetype;
        epic_link := epic_link1;
        epic_name := epic_name1;
        parent_key := v_parent_key;
        parent_summary := v_parent_summary;
        assignee := v_assignee;
        created := v_created;
        updated := v_updated;
        sprint := sprint_name |}.


(** *** group_issues_by_parent *)

(** The body of the [for issue in issues] loop, on the pair of the [epics]
    dictionary and the [standalone] list. *)
Definition group_step (acc : list (string * EpicGroup.t) * list Issue)
    (issue : Issue) : list (string * EpicGroup.t) * list Issue :=
  let '(epics, standalone) := acc in
  if is_epic issue then
    (OrderedDict.set epics (key issue)
       {| EpicGroup.epic_key := key issue;
          EpicGroup.epic_name := Str.or (epic_name issue) (summary issue);
          EpicGroup.children := [];
          EpicGroup.status := None |},
     standalone)
  else
    let epic_key := epic_link issue in
    if Str.truthy epic_key then
      let epics :=
        if negb (OrderedDict.mem epics epic_key) then
          OrderedDict.set epics epic_key
            {| EpicGroup.epic_key := epic_key;
               EpicGroup.epic_name := "";
               EpicGroup.children := [];
               EpicGroup.status := None |}
        else epics in
      (OrderedDict.alter
         (fun g => EpicGroup.set_children g (EpicGroup.children g ++ [issue]))
         epics epic_key,
       standalone)
    else (epics, standalone ++ [issue]).

Definition group_issues_by_parent (issues : list Issue) : GroupedResult :=
  let '(epics, standalone) := fold_left group_step issues ([], []) in
  {| epics := epics; standalone := standalone; epic_details := None |}.

End JiraClient.

(** ** generate_api_report.py *)

Module SprintReportGenerator.

(** *** fetch_sprint_data *)

(** [fetch_sprint_data] is embedded from the point where the issues of the
    query have been parsed. [fetch_epics ks] stands for the supplementary
    query [key in (ks)] followed by [parse_issue] on each answer. *)
Section fetch.
Variable parsed_issues : list Issue.
Variable fetch_epics : gset string -> list Issue.

Definition valid_issue_keys : gset string :=
  list_to_set (key <$> parsed_issues).

Definition epics_in_jql : gset string :=
  fold_left
    (fun acc issue => if is_epic issue then acc ∪ {[key issue]} else acc)
    parsed_issues ∅.

Definition epic_links_from_children : gset string :=
  fold_left
    (fun acc issue =>
       let epic_link := epic_link issue in
       if Str.truthy epic_link then acc ∪ {[epic_link]} else acc)
    parsed_issues ∅.

Definition epic_keys_to_fetch : gset string :=
  epic_links_from_children ∖ epics_in_jql.

Definition compute_epic_details : gmap string Issue :=
  let epic_details :=
    fold_left
      (fun acc issue =>
         if is_epic issue then <[key issue := issue]> acc else acc)
      parsed_issues ∅ in
  if bool_decide (epic_keys_to_fetch ≠ ∅) then
    fold_left (fun acc epic_data => <[key epic_data := epic_data]> acc)
      (fetch_epics epic_keys_to_fetch) epic_details
  else epic_details.

Definition key_is_valid (issue : Issue) : bool :=
  bool_decide (key issue ∈ valid_issue_keys).

(** The body of the loop over [grouped_data['epics'].items()]. *)
Definition filter_step (filtered_epics : list (string * EpicGroup.t))
    (item : string * EpicGroup.t) : list (string * EpicGroup.t) :=
  let '(epic_key, epic_data) := item in
  let children := EpicGroup.children epic_data in
  if bool_decide (epic_key ∈ epics_in_jql) || existsb key_is_valid children
  then
    let filtered_children := List.filter key_is_valid children in
    let epic_data := EpicGroup.set_children epic_data filtered_children in
    if match filtered_children with [] => false | _ => true end
       || bool_decide (epic_key ∈ epics_in_jql)
    then OrderedDict.set filtered_epics epic_key epic_data
    else filtered_epics
  else filtered_epics.

(** The second half of [fetch_sprint_data]: what it does to the dictionary
    [grouped_data] that the grouping returned. *)
Definition reconcile (grouped_data : GroupedResult) : GroupedResult :=
  let filtered_epics := fold_left filter_step (epics grouped_data) [] in
  {| epics := filtered_epics;
     standalone := List.filter key_is_valid (standalone grouped_data);
     epic_details := Some compute_epic_details |}.

Definition fetch_sprint_data : GroupedResult :=
  reconcile (JiraClient.group_issues_by_parent parsed_issues).

End fetch.

(** *** determine_epic_status *)

Definition is_done (child : Issue) : bool :=
  String.eqb (Str.lower (status_category child)) "done".

Definition determine_epic_status (epic_data : EpicGroup.t) : string :=
  let children := EpicGroup.children epic_data in
  match children with
  | [] => "Unknown"
  | _ =>
      let done_count := sum_list ((fun _ => 1) <$> List.filter is_done children) in
      if done_count =? length children then "Done" else "In Progress"
  end.

(** *** generate_epic_summary *)

(** [(\d+\.\d+(?:\.\d+)?)\s*-\s*(\d+\.\d+(?:\.\d+)?)] *)
Definition version_number : Re.re :=
  Re.Seq (Re.Plus (Re.Chr Str.is_digit))
    (Re.Seq (Re.Lit ".")
       (Re.Seq (Re.Plus (Re.Chr Str.is_digit))
          (Re.Opt (Re.Seq (Re.Lit ".") (Re.Plus (Re.Chr Str.is_digit)))))).
Definition version_range : Re.re :=
  Re.Seq (Re.Group 1 version_number)
    (Re.Seq (Re.Star (Re.Chr Str.is_space))
       (Re.Seq (Re.Lit "-")
          (Re.Seq (Re.Star (Re.Chr Str.is_space))
             (Re.Group 2 version_number)))).

(** [\(([^)]+)\)] *)
Definition parenthesized : Re.re :=
  Re.Seq (Re.Lit "(") (Re.Seq (Re.Group 1 (Re.Plus (Re.Not ")"))) (Re.Lit ")")).

(** [\[([^\]]+)\]] *)
Definition bracketed : Re.re :=
  Re.Seq (Re.Lit "[") (Re.Seq (Re.Group 1 (Re.Plus (Re.Not "]"))) (Re.Lit "]")).

(** [counts[k] = counts.get(k, 0) + 1] *)
Definition count_up (counts : list (string * nat)) (k : string)
  : list (string * nat) :=
  OrderedDict.set counts k (default 0 (OrderedDict.get counts k) + 1).

(** [sorted(counts.items())]: the keys are distinct, so the order is the
    order of the keys. *)
Fixpoint insert_item (x : string * nat) (l : list (string * nat))
  : list (string * nat) :=
  match l with
  | [] => [x]
  | y :: l' => if String.ltb x.1 y.1 then x :: l else y :: insert_item x l'
  end.
Definition sorted_items (counts : list (string * nat))
  : list (string * nat) :=
  fold_left (fun acc x => insert_item x acc) counts [].

Definition istio_rollout_summary (epic_name : string)
    (done_children : list Issue) (done_count : nat) : string :=
  let version_str :=
    match Re.search version_range epic_name with
    | Some version_match =>
        Re.group version_match 1 +:+ " to " +:+ Re.group version_match 2
    | None => "upgrade"
    end in
  let service_env_counts :=
    fold_left
      (fun counts child =>
         match Re.search parenthesized (summary child) with
         | Some m =>
             let service_env := Str.strip (Re.group m 1) in
             match Str.rsplit_space service_env with
             | [service; env] => count_up counts (service +:+ " " +:+ env)
             | _ => count_up counts service_env
             end
         | None => counts
         end)
      done_children [] in
  let summary_parts :=
    (fun '(service_env, count) =>
       let cluster_word := if count =? 1 then "cluster" else "clusters" in
       service_env +:+ " - " +:+ Str.of_nat count +:+ " " +:+ cluster_word)
    <$> sorted_items service_env_counts in
  match summary_parts with
  | _ :: _ =>
      let details := String.concat "<br>" summary_parts in
      "Completed Istio " +:+ version_str +:+ " rollout:<br>" +:+ details
  | [] =>
      "Completed Istio " +:+ version_str +:+ " rollout across "
        +:+ Str.of_nat done_count +:+ " clusters."
  end.

Definition argocd_summary (epic_name : string) (done_children : list Issue)
  : string :=
  let component :=
    if Str.contains "-" epic_name
    then Str.strip (Str.after_last_hyphen epic_name)
    else "component" in
  let component := Str.title component in
  let env_list :=
    fold_left
      (fun env_list child =>
         match Re.search bracketed (summary child) with
         | Some env_match => env_list ++ [Re.group env_match 1]
         | None => env_list
         end)
      done_children [] in
  match env_list with
  | _ :: _ =>
      let unique_envs := Str.sorted (remove_dups env_list) in
      match unique_envs with
      | [env] => "Migrated " +:+ component +:+ " to ArgoCD in " +:+ env +:+ "."
      | _ =>
          "Migrated " +:+ component +:+ " to ArgoCD across "
            +:+ String.concat ", " unique_envs +:+ " environments."
      end
  | [] => "Completed ArgoCD migration for " +:+ component +:+ "."
  end.

(** The generic, count-based summary (the [else] branch). *)
Definition generic_summary (total done_count : nat) : string :=
  if (done_count =? total) && (0 <? total) then
    "Completed all " +:+ Str.of_nat total +:+ " related tasks."
  else if 0 <? done_count then
    "Completed " +:+ Str.of_nat done_count +:+ " of " +:+ Str.of_nat total
      +:+ " tasks."
  else Str.of_nat total +:+ " tasks tracked.".

Definition generate_epic_summary (epic_data : EpicGroup.t) : string :=
  let children := EpicGroup.children epic_data in
  let total := length children in
  let epic_name := Str.lower (EpicGroup.epic_name epic_data) in
  let done_children := List.filter is_done children in
  let done_count := length done_children in
  if Str.contains "istio" epic_name && Str.contains "rollout" epic_name then
    istio_rollout_summary epic_name done_children done_count
  else if Str.contains "argocd" epic_name then
    argocd_summary epic_name done_children
  else generic_summary total done_count.

(** *** generate_markdown_report *)

(** One element of [epic_entries]. *)
Module Entry.
Record t : Type := mk {
  epic_key : string;
  description : string;
  targeted_sprint : string;
  status : string;
  details : string
}.
End Entry.

(** The entry of one item of [epics_dict]. *)
Definition epic_entry (epic_details : gmap string Issue)
    (item : string * EpicGroup.t) : Entry.t :=
  let '(epic_key, epic_data) := item in
  let epic_info : option Issue := epic_details !! epic_key in
  let epic_status :=
    Str.or_opt (status <$> epic_info)
      (Str.or_opt (EpicGroup.status epic_data)
         (determine_epic_status epic_data)) in
  let targeted_sprint := default "" (sprint <$> epic_info) in
  let epic_name :=
    Str.or_opt (summary <$> epic_info)
      (Str.or_opt (epic_name <$> epic_info)
         (Str.or_opt (Some (EpicGroup.epic_name epic_data))
            ("Epic " +:+ epic_key))) in
  let summary := generate_epic_summary epic_data in
  {| Entry.epic_key := epic_key;
     Entry.description := epic_name;
     Entry.targeted_sprint := targeted_sprint;
     Entry.status := epic_status;
     Entry.details := summary |}.

(** The entry of one standalone issue. *)
Definition standalone_entry (issue : Issue) : Entry.t :=
  let status := Str.or (status issue) (status_category issue) in
  {| Entry.epic_key := key issue;
     Entry.description := summary issue;
     Entry.targeted_sprint := "";
     Entry.status := status;
     Entry.details := String.substring 0 200 (summary issue) |}.

Definition epic_entries (grouped_data : GroupedResult) : list Entry.t :=
  let epic_details := default ∅ (epic_details grouped_data) in
  (epic_entry epic_details <$> epics grouped_data)
    ++ (standalone_entry <$> standalone grouped_data).

Definition get_sort_order (entry : Entry.t) : nat :=
  let status := Str.lower (Entry.status entry) in
  if String.eqb status "done" then 0
  else if String.eqb status "in progress" then 1
  else 2.

(** [sorted(epic_entries, key=get_sort_order)]: stable. *)
Fixpoint insert_entry (x : Entry.t) (l : list Entry.t) : list Entry.t :=
  match l with
  | [] => [x]
  | y :: l' =>
      if get_sort_order x <? get_sort_order y then x :: l
      else y :: insert_entry x l'
  end.
Definition epic_entries_sorted (grouped_data : GroupedResult)
  : list Entry.t :=
  fold_left (fun acc x => insert_entry x acc) (epic_entries grouped_data) [].

(** One line of the table. *)
Definition table_row (epic : Entry.t) : string :=
  let epic_link :=
    "[" +:+ Entry.epic_key epic +:+ "](https://hpe.atlassian.net/browse/"
      +:+ Entry.epic_key epic +:+ ")" in
  "| " +:+ epic_link +:+ " | " +:+ Entry.description epic +:+ " | "
    +:+ Entry.targeted_sprint epic +:+ " | " +:+ Entry.status epic +:+ " | "
    +:+ Entry.details epic +:+ " |".

(** The lines of section B of the report. *)
Definition epic_updates (grouped_data : GroupedResult) : list string :=
  [""; "## B] Epic Updates"; "";
   "| Epic | Description | Targeted Sprint | Status | Details |";
   "|------|-------------|----------------|--------|---------|"]
  ++ (table_row <$> epic_entries_sorted grouped_data).

End SprintReportGenerator.

(** ** The shape of a raw issue *)

(** What [parse_issue] expects of the record it reads: each key is absent
    or holds a value of the type the Jira API documents for it. *)
Module Shape.

Definition absent_or (P : pyval -> bool) (d : list (string * pyval))
    (k : string) : bool :=
  match dict_lookup d k with
  | None => true
  | Some v => P v
  end.

Definition is_dict_with (P : list (string * pyval) -> bool) (v : pyval)
  : bool :=
  match v with
  | PDict d => P d
  | _ => false
  end.

Definition str_field (k : string) (d : list (string * pyval)) : bool :=
  absent_or is_str d k.

Definition obj_field (k : string) (P : list (string * pyval) -> bool)
    (d : list (string * pyval)) : bool :=
  absent_or (is_dict_with P) d k.

(** [null] (or any false value), or an object. *)
Definition nullable (P : list (string * pyval) -> bool) (v : pyval) : bool :=
  negb (truthy v) || is_dict_with P v.

Definition status_shape (d : list (string * pyval)) : bool :=
  str_field "name" d && obj_field "statusCategory" (str_field "name") d.

Definition parent_fields_shape (d : list (string * pyval)) : bool :=
  str_field "summary" d && obj_field "issuetype" (fun _ => true) d.

Definition parent_shape (d : list (string * pyval)) : bool :=
  str_field "key" d && obj_field "fields" parent_fields_shape d.

(** Anything but a list whose first element is not an object with a name. *)
Definition sprint_shape (v : pyval) : bool :=
  match v with
  | PList (first :: _) => is_dict_with (str_field "name") first
  | _ => true
  end.

Definition fields_shape (f : list (string * pyval)) : bool :=
  str_field "summary" f && str_field "description" f
  && obj_field "status" status_shape f
  && obj_field "issuetype" (str_field "name") f
  && str_field "customfield_10014" f && str_field "customfield_10011" f
  && absent_or (nullable parent_shape) f "parent"
  && absent_or (nullable (str_field "displayName")) f "assignee"
  && str_field "created" f && str_field "updated" f
  && absent_or sprint_shape f "customfield_10020".

Definition well_shaped (issue : pyval) : bool :=
  is_dict_with (fun d => str_field "key" d && obj_field "fields" fields_shape d)
    issue.

(** The value at the end of a path of keys: [None] when a level is absent
    (or is not an object). *)
Fixpoint path (v : pyval) (ks : list string) : option pyval :=
  match ks with
  | [] => Some v
  | k :: ks' =>
      match v with
      | PDict d =>
          match dict_lookup d k with
          | Some v' => path v' ks'
          | None => None
          end
      | _ => None
      end
  end.

(** The keys of the normalized issue that are read from one place of the
    raw record, and that place. *)
Definition string_fields : list ((IssueOf pyval -> pyval) * list string) :=
  [(key, ["key"]);
   (summary, ["fields"; "summary"]);
   (description, ["fields"; "description"]);
   (status, ["fields"; "status"; "name"]);
   (status_category, ["fields"; "status"; "statusCategory"; "name"]);
   (issuetype, ["fields"; "issuetype"; "name"]);
   (epic_name, ["fields"; "customfield_10011"]);
   (parent_key, ["fields"; "parent"; "key"]);
   (parent_summary, ["fields"; "parent"; "fields"; "summary"]);
   (assignee, ["fields"; "assignee"; "displayName"]);
   (created, ["fields"; "created"]);
   (updated, ["fields"; "updated"])].

(** The sprint field is absent, is not a list, or is the empty list. *)
Definition no_sprint (issue : pyval) : bool :=
  match path issue ["fields"; "customfield_10020"] with
  | Some (PList (_ :: _)) => false
  | _ => true
  end.

End Shape.

(** ** Comparison of strings without regard to case *)

(** Two strings are equal up to the case of their letters. *)
Fixpoint equal_ignoring_case (a b : string) : bool :=
  match a, b with
  | EmptyString, EmptyString => true
  | String x a', String y b' =>
      Ascii.eqb (Str.lower_ascii x) (Str.lower_ascii y)
      && equal_ignoring_case a' b'
  | _, _ => false
  end.

(** ** The description column, in the words of the specification *)

(** "The epic's name; if the epic name is empty, the epic's own summary; if
    both are empty, Epic {key}", for the record [epic] of an epic. *)
Definition claimed_description (epic : Issue) : string :=
  if negb (String.eqb (epic_name epic) "") then epic_name epic
  else if negb (String.eqb (summary epic) "") then summary epic
  else "Epic " +:+ key epic.

(** ** Invariants of the grouping loop *)

Module Invariants.

(** After the issues [seen], for the dictionary [epics] and the list
    [standalone] of [group_step]: the children of a group and the standalone
    issues are issues seen, in the order they were seen, none of them an
    epic; a group whose key is the key of no epic seen has the empty name;
    every epic seen has a group. *)
Definition group_inv (seen : list Issue)
    (acc : list (string * EpicGroup.t) * list Issue) : Prop :=
  (forall k g, (k, g) ∈ acc.1 ->
     EpicGroup.children g `sublist_of` seen /\
     Forall (fun c => is_epic c = false) (EpicGroup.children g) /\
     ((forall i, i ∈ seen -> is_epic i = true -> key i <> k) ->
      EpicGroup.epic_name g = "")) /\
  acc.2 `sublist_of` seen /\
  Forall (fun c => is_epic c = false) acc.2 /\
  (forall i, i ∈ seen -> is_epic i = true -> key i ∈ acc.1.*1).

End Invariants.

(** ** Inputs of the examples *)

Module Examples.
Import JiraClient.

(** A server with two issues of which the second page cannot be fetched. *)
Definition flaky_server (start_at : Z) : response :=
  if (start_at =? 0)%Z then Page (Some [PStr "T-1"]) (Some 2%Z) else Failed.

(** A record whose status is [null]. *)
Definition null_status : pyval :=
  PDict [("key", PStr "T-1"); ("fields", PDict [("status", PNone)])].

(** A record whose summary is [null]. *)
Definition null_summary : pyval :=
  PDict [("key", PStr "T-1"); ("fields", PDict [("summary", PNone)])].

(** A story of an epic, in the second sprint. *)
Definition story : pyval :=
  PDict
    [("key", PStr "T-1");
     ("fields",
      PDict
        [("summary", PStr "Upgrade the mesh");
         ("status",
          PDict [("name", PStr "Closed");
                 ("statusCategory", PDict [("name", PStr "Done")])]);
         ("issuetype", PDict [("name", PStr "Story")]);
         ("parent",
          PDict [("key", PStr "E-1");
                 ("fields",
                  PDict [("summary", PStr "Mesh");
                         ("issuetype", PDict [("name", PStr "Epic")])])]);
         ("assignee", PNone);
         ("customfield_10020", PList [PDict [("name", PStr "Sprint 2")]])])].

(** A normalized issue, from the keys the grouping and the report read. *)
Definition issue (k type link name text st category : string) : Issue :=
  {| key := k; summary := text; description := ""; status := st;
     status_category := category; issuetype := type; epic_link := link;
     epic_name := name; parent_key := link; parent_summary := "";
     assignee := ""; created := ""; updated := ""; sprint := "" |}.

Definition epic_E1 : Issue :=
  issue "E-1" "Epic" "" "Platform" "Upgrade the platform" "Open" "In Progress".
Definition epic_E2 : Issue :=
  issue "E-2" "Epic" "E-1" "" "Mesh" "Open" "To Do".
Definition story_T1 : Issue :=
  issue "T-1" "Story" "E-1" "" "Upgrade staging" "Closed" "Done".
Definition story_T2 : Issue :=
  issue "T-2" "Story" "E-1" "" "Upgrade production" "Open" "To Do".
Definition task_S1 : Issue :=
  issue "S-1" "Task" "" "" "Rotate the keys" "Closed" "Done".
Definition story_T9 : Issue :=
  issue "T-9" "Story" "E-9" "" "Roll out (ingress prod)" "Closed" "Done".
(** An epic that only the supplementary query returns. *)
Definition epic_E9 : Issue :=
  issue "E-9" "Epic" "" "Istio rollout 1.20 - 1.22" "Mesh rollout" "Open"
    "In Progress".

Definition sprint_issues : list Issue :=
  [epic_E1; epic_E2; story_T1; story_T2; task_S1; story_T9].

Definition fetch_E9 (ks : gset string) : list Issue := [epic_E9].

(** A supplementary query that returns nothing. *)
Definition fetch_nothing (ks : gset string) : list Issue := [].

(** The group of [epic_E9] in the result for [sprint_issues]: it was
    created for its child [story_T9]. *)
Definition group_E9 : EpicGroup.t :=
  {| EpicGroup.epic_key := "E-9"; EpicGroup.epic_name := "";
     EpicGroup.children := [story_T9]; EpicGroup.status := None |}.

End Examples.

(** ** What the grouping loop does with one key *)

Module GroupingSpec.

(** [issue] is an epic with the key [k]: the loop (re)creates the group of
    [k] for it. *)
Definition registers (k : string) (issue : Issue) : bool :=
  is_epic issue && String.eqb (key issue) k.

(** [issue] is no epic and its epic link is [k]: the loop appends it to the
    children of the group of [k]. *)
Definition linked_to (k : string) (issue : Issue) : bool :=
  negb (is_epic issue) && Str.truthy (epic_link issue)
  && String.eqb (epic_link issue) k.

(** [issue] is no epic and has no epic link. *)
Definition is_standalone (issue : Issue) : bool :=
  negb (is_epic issue) && negb (Str.truthy (epic_link issue)).

(** [issue] makes the loop touch a group, and the key of that group. *)
Definition has_group (issue : Issue) : bool :=
  is_epic issue || Str.truthy (epic_link issue).
Definition group_key (issue : Issue) : string :=
  if is_epic issue then key issue else epic_link issue.

(** The issues that come after the last epic with the key [k] (all of them
    when there is no such epic). *)
Definition since_last_epic (k : string) (issues : list Issue) : list Issue :=
  fold_left (fun acc issue => if registers k issue then [] else acc ++ [issue])
    issues [].

(** The last epic with the key [k]. *)
Definition last_epic (k : string) (issues : list Issue) : option Issue :=
  last (List.filter (registers k) issues).

(** The elements of a list without repetition, each at the place of its
    first occurrence. *)
Definition first_occurrences (l : list string) : list string :=
  reverse (remove_dups (reverse l)).

(** What the loop keeps true of one entry of the dictionary, after the
    issues [seen]. *)
Definition entry_exact (seen : list Issue) (k : string) (g : EpicGroup.t)
  : Prop :=
  EpicGroup.epic_key g = k /\
  EpicGroup.status g = None /\
  EpicGroup.children g
  = List.filter (linked_to k) (since_last_epic k seen) /\
  EpicGroup.epic_name g
  = match last_epic k seen with
    | Some e => Str.or (epic_name e) (summary e)
    | None => ""
    end /\
  (last_epic k seen = None -> EpicGroup.children g <> []).

(** What the loop keeps true of the dictionary and the standalone list. *)
Definition grouping_exact (seen : list Issue)
    (acc : list (string * EpicGroup.t) * list Issue) : Prop :=
  NoDup (acc.1).*1 /\
  (acc.1).*1 = first_occurrences (group_key <$> List.filter has_group seen) /\
  (forall k g, (k, g) ∈ acc.1 -> entry_exact seen k g) /\
  acc.2 = List.filter is_standalone seen.

End GroupingSpec.

(** ** The tallies inside the summaries *)

Module SummaryParts.
Import SprintReportGenerator.

(** The dictionary [service_env_counts] that the Istio summary builds from
    the completed children. *)
Definition service_env_tally (done_children : list Issue)
  : list (string * nat) :=
  fold_left
    (fun counts child =>
       match Re.search parenthesized (summary child) with
       | Some m =>
           let service_env := Str.strip (Re.group m 1) in
           match Str.rsplit_space service_env with
           | [service; env] => count_up counts (service +:+ " " +:+ env)
           | _ => count_up counts service_env
           end
       | None => counts
       end)
    done_children [].

(** The list [env_list] that the ArgoCD summary builds from the completed
    children, and the list [unique_envs] made of it. *)
Definition env_list (done_children : list Issue) : list string :=
  fold_left
    (fun env_list child =>
       match Re.search bracketed (summary child) with
       | Some env_match => env_list ++ [Re.group env_match 1]
       | None => env_list
       end)
    done_children [].
Definition unique_envs (done_children : list Issue) : list string :=
  Str.sorted (remove_dups (env_list done_children)).

(** [re.search(r, issue['summary'])] finds a match. *)
Definition has_token (r : Re.re) (issue : Issue) : bool :=
  match Re.search r (summary issue) with
  | Some _ => true
  | None => false
  end.

(** The text [version_str] of the Istio summary and the text [component]
    of the ArgoCD summary, from the lower-cased name of the epic. *)
Definition version_str (epic_name : string) : string :=
  match Re.search version_range epic_name with
  | Some version_match =>
      Re.group version_match 1 +:+ " to " +:+ Re.group version_match 2
  | None => "upgrade"
  end.
Definition component (epic_name : string) : string :=
  Str.title
    (if Str.contains "-" epic_name
     then Str.strip (Str.after_last_hyphen epic_name)
     else "component").

(** One line of the Istio summary. *)
Definition cluster_line (item : string * nat) : string :=
  let '(service_env, count) := item in
  let cluster_word := if count =? 1 then "cluster" else "clusters" in
  service_env +:+ " - " +:+ Str.of_nat count +:+ " " +:+ cluster_word.

End SummaryParts.

(** ** generate_api_report.py: the configuration; jira_client.py: the client *)

Module Config.

(** The loaded configuration is a [pyval]: what [yaml.safe_load] gives for a
    file of mappings, lists, strings, integers, booleans and nulls. *)

(** The ways in which the set-up code stops: [sys.exit(code)], or an
    exception of Python. *)
Inductive failure : Type :=
| SystemExit (code : Z)
| TypeError
| AttributeError
| KeyError.

Inductive outcome (A : Type) : Type :=
| Returns (a : A)
| Fails (e : failure).
Arguments Returns {A} a.
Arguments Fails {A} e.

#[global] Instance outcome_bind : MBind outcome :=
  fun A B f m =>
    match m with
    | Returns a => f a
    | Fails e => Fails e
    end.

(** [k in v] for a string [k]: a key of a dictionary, a part of a string, an
    element of a list; the other values are not iterable. *)
Definition contains (k : string) (v : pyval) : outcome bool :=
  match v with
  | PDict d =>
      Returns (match dict_lookup d k with Some _ => true | None => false end)
  | PStr s => Returns (Str.contains k s)
  | PList l => Returns (existsb (fun x => eq_str x k) l)
  | _ => Fails TypeError
  end.

(** [v.get(k, {})] *)
Definition get (v : pyval) (k : string) : outcome pyval :=
  match v with
  | PDict d => Returns (dict_get d k empty_dict)
  | _ => Fails AttributeError
  end.

(** [v[k]] for a string [k]: the value under the key of a dictionary; a
    string and a list take no string as index. *)
Definition subscript (v : pyval) (k : string) : outcome pyval :=
  match v with
  | PDict d =>
      match dict_lookup d k with
      | Some x => Returns x
      | None => Fails KeyError
      end
  | _ => Fails TypeError
  end.

(** [for name in names: if name not in v: sys.exit(1)] *)
Fixpoint require_all (names : list string) (v : pyval) : outcome unit :=
  match names with
  | [] => Returns tt
  | name :: names' =>
      present ← contains name v;
      if negb present then Fails (SystemExit 1) else require_all names' v
  end.

Definition required_sections : list string := ["sprint_info"; "jira"; "output"].
Definition required_sprint_fields : list string :=
  ["sprint_number"; "start_date"; "end_date"; "team_name"].

(** [SprintReportGenerator._validate_config], on the loaded configuration. *)
Definition validate_config (config : pyval) : outcome unit :=
  _ ← require_all required_sections config;
  sprint_info ← get config "sprint_info";
  _ ← require_all required_sprint_fields sprint_info;
  jira_config ← get config "jira";
  has_server ← contains "server_url" jira_config;
  if negb has_server then Fails (SystemExit 1) else
  has_url ← contains "issue_navigator_url" jira_config;
  if negb has_url then Fails (SystemExit 1) else
  url ← subscript jira_config "issue_navigator_url";
  if negb (truthy url) then Fails (SystemExit 1) else Returns tt.

(** [s.rstrip('/')] *)
Fixpoint lstrip_slash (s : list ascii) : list ascii :=
  match s with
  | c :: s' => if Ascii.eqb c "/" then lstrip_slash s' else s
  | [] => []
  end.
Definition rstrip_slash (s : string) : string :=
  string_of_list_ascii (rev (lstrip_slash (rev (list_ascii_of_string s)))).

(** The fields that [JiraClient.__init__] sets from its arguments. *)
Record Client : Type := mkClient {
  server_url : string;
  email : string;
  api_token : string
}.

(** [a or b] where [a] and [b] are a string or [None]. *)
Definition or_env (a b : option string) : option string :=
  match a with
  | Some s => if Str.truthy s then a else b
  | None => b
  end.

(** [JiraClient.__init__]: [env_email] and [env_token] are what
    [os.getenv] gives for [JIRA_EMAIL] and [JIRA_API_TOKEN]. *)
Definition init (url : pyval) (email_arg token_arg : option string)
    (env_email env_token : option string) : outcome Client :=
  match url with
  | PStr s =>
      let server_url := rstrip_slash s in
      let email := or_env email_arg env_email in
      let api_token := or_env token_arg env_token in
      match email, api_token with
      | Some e, Some t =>
          if negb (Str.truthy e) || negb (Str.truthy t)
          then Fails (SystemExit 1)
          else Returns {| server_url := server_url; email := e;
                          api_token := t |}
      | _, _ => Fails (SystemExit 1)
      end
  | _ => Fails AttributeError
  end.

(** The address of the search request. *)
Definition search_url (c : Client) : string :=
  server_url c +:+ "/rest/api/3/search/jql".

End Config.

(** ** Insertion-ordered dictionaries: membership and keys *)

Module OrderedDictProps.
Import OrderedDict.
Section facts.
Context {V : Type}.
Implicit Types (d : list (string * V)) (k : string) (v : V).

Lemma elem_of_set d k v k' v' :
  (k', v') ∈ set d k v -> (k' = k /\ v' = v) \/ (k', v') ∈ d.
Proof.
  induction d as [|[k0 v0] d IH]; simpl.
  - intros [= -> ->]%list_elem_of_singleton. by left.
  - destruct (String.eqb_spec k0 k) as [->|Hne].
    + intros [[= -> ->]|Hin]%elem_of_cons.
      * by left.
      * right. by right.
    + intros [E|Hin]%elem_of_cons.
      * right. rewrite E. by left.
      * destruct (IH Hin) as [?|?]; [by left | right; by right].
Qed.

Lemma elem_of_alter f d k k' v' :
  (k', v') ∈ alter f d k ->
  (k', v') ∈ d \/ (k' = k /\ exists v0, (k, v0) ∈ d /\ v' = f v0).
Proof.
  induction d as [|[k0 v0] d IH]; simpl; [by left|].
  destruct (String.eqb_spec k0 k) as [->|Hne].
  - intros [E|Hin]%elem_of_cons.
    + right. injection E as -> ->. split; [done|]. exists v0. split; [by left|done].
    + left. by right.
  - intros [E|Hin]%elem_of_cons.
    + left. rewrite E. by left.
    + destruct (IH Hin) as [?|(-> & v1 & ? & ->)]; [left; by right|].
      right. split; [done|]. exists v1. split; [by right|done].
Qed.

Lemma set_fresh d k v : k ∉ d.*1 -> set d k v = d ++ [(k, v)].
Proof.
  induction d as [|[k0 v0] d IH]; simpl; [done|].
  intros Hnin. apply not_elem_of_cons in Hnin as [Hne Hnin].
  destruct (String.eqb_spec k0 k) as [->|_]; [done|].
  by rewrite IH.
Qed.

Lemma set_keys d k v : k ∈ d.*1 -> (set d k v).*1 = d.*1.
Proof.
  induction d as [|[k0 v0] d IH]; simpl.
  - by intros ?%elem_of_nil.
  - destruct (String.eqb_spec k0 k) as [->|Hne]; [done|].
    intros [?|Hin]%elem_of_cons; [congruence|].
    simpl. f_equal. by apply IH.
Qed.

Lemma set_keys_here d k v : k ∈ (set d k v).*1.
Proof.
  destruct (decide (k ∈ d.*1)) as [Hin|Hnin].
  - by rewrite set_keys.
  - rewrite set_fresh, fmap_app by done. apply elem_of_app. right. by left.
Qed.

Lemma set_keys_mono d k v k' : k' ∈ d.*1 -> k' ∈ (set d k v).*1.
Proof.
  intros Hk'. destruct (decide (k ∈ d.*1)) as [Hin|Hnin].
  - by rewrite set_keys.
  - rewrite set_fresh, fmap_app by done. apply elem_of_app. by left.
Qed.

Lemma alter_keys f d k : (alter f d k).*1 = d.*1.
Proof.
  induction d as [|[k0 v0] d IH]; simpl; [done|].
  destruct (String.eqb k0 k); simpl; [done|]. f_equal. apply IH.
Qed.

Lemma elem_of_set_ne d k v k' v' :
  (k', v') ∈ set d k v -> k' <> k -> (k', v') ∈ d.
Proof. intros [[? _]|?]%elem_of_set; done. Qed.

Lemma elem_of_keys d k v : (k, v) ∈ d -> k ∈ d.*1.
Proof. intros H. apply list_elem_of_fmap. by exists (k, v). Qed.

(** With distinct keys, [set] leaves one value under the key. *)
Lemma elem_of_set_eq d k v v' :
  NoDup d.*1 -> (k, v') ∈ set d k v -> v' = v.
Proof.
  induction d as [|[k0 v0] d IH]; simpl.
  - by intros _ [= ->]%list_elem_of_singleton.
  - intros [Hk0 Hd]%NoDup_cons.
    destruct (String.eqb_spec k0 k) as [->|Hne].
    + intros [[= ->]|Hin]%elem_of_cons; [done|].
      by apply elem_of_keys in Hin.
    + intros [[= ? ?]|Hin]%elem_of_cons; [done | by apply IH].
Qed.

Lemma elem_of_alter_ne f d k k' v' :
  (k', v') ∈ alter f d k -> k' <> k -> (k', v') ∈ d.
Proof. intros [?|[? _]]%elem_of_alter; done. Qed.

(** With distinct keys, the value under the key after [alter] is the
    altered one. *)
Lemma elem_of_alter_eq f d k v' :
  NoDup d.*1 -> (k, v') ∈ alter f d k ->
  exists v0, (k, v0) ∈ d /\ v' = f v0.
Proof.
  induction d as [|[k0 v0] d IH]; simpl.
  - by intros _ ?%elem_of_nil.
  - intros [Hk0 Hd]%NoDup_cons.
    destruct (String.eqb_spec k0 k) as [->|Hne].
    + intros [[= ->]|Hin]%elem_of_cons.
      * exists v0. split; [by left | done].
      * by apply elem_of_keys in Hin.
    + intros [[= ? ?]|Hin]%elem_of_cons; [done|].
      destruct (IH Hd Hin) as (v1 & ? & ->).
      exists v1. split; [by right | done].
Qed.

Lemma mem_keys d k : mem d k = true <-> k ∈ d.*1.
Proof.
  unfold mem. induction d as [|[k0 v0] d IH]; simpl.
  - split; [done | by intros ?%elem_of_nil].
  - destruct (String.eqb_spec k0 k) as [->|Hne].
    + split; [intros _; by left | done].
    + rewrite IH, elem_of_cons. split; [by right | by intros [?|?]].
Qed.

Lemma NoDup_set_keys d k v : NoDup d.*1 -> NoDup (set d k v).*1.
Proof.
  intros Hd. destruct (decide (k ∈ d.*1)) as [Hin|Hnin].
  - by rewrite set_keys.
  - rewrite set_fresh, fmap_app by done. simpl.
    apply NoDup_app. split; [done|]. split; [|apply NoDup_singleton].
    intros x Hx ->%list_elem_of_singleton. done.
Qed.

End facts.
End OrderedDictProps.

(** An invariant of a left fold that speaks of the elements folded so far. *)
Lemma fold_left_invariant {A S : Type} (step : S -> A -> S)
    (I : list A -> S -> Prop) (s0 : S) (l : list A) :
  I [] s0 ->
  (forall pre s x, I pre s -> I (pre ++ [x]) (step s x)) ->
  I l (fold_left step l s0).
Proof.
  intros H0 Hstep. induction l as [|x l IH] using rev_ind; [done|].
  rewrite fold_left_app. simpl. by apply Hstep.
Qed.

(** ** Properties of the Jira client *)

Module JiraClientProps.
Import JiraClient Shape Invariants Examples.

(** *** Pagination failures *)

Lemma search_loop_failure fuel http_get start_at all_issues acc :
  accumulated_at_failure fuel http_get start_at all_issues = Some acc ->
  search_loop fuel http_get start_at all_issues = Some (Raise RequestException).
Proof.
  revert start_at all_issues.
  induction fuel as [|fuel IH]; intros start_at all_issues; simpl.
  - discriminate.
  - destruct (http_get start_at) as [|oissues ototal]; [reflexivity|].
    destruct (_ || _); [discriminate|]. apply IH.
Qed.

(** C3 (as stated, refuted): the first page is fetched, the second fetch
    fails, one issue had been accumulated, and [search_issues] returns the
    empty list, not the accumulated issue. *)
Lemma search_issues_truncation_counterexample :
  accumulated_at_failure 2 flaky_server 0%Z [] = Some [PStr "T-1"] /\
  search_issues 2 flaky_server = Some (Ok []) /\
  search_issues 2 flaky_server <> Some (Ok [PStr "T-1"]).
Proof. split; [reflexivity | split; [reflexivity | discriminate]]. Qed.

(** C3 (amended): whenever a page fetch fails, whatever had been accumulated
    from the earlier pages, [search_issues] returns the empty list and no
    exception propagates. *)
Theorem search_issues_failure_returns_empty fuel http_get acc :
  accumulated_at_failure fuel http_get 0%Z [] = Some acc ->
  search_issues fuel http_get = Some (Ok []).
Proof.
  intros H. unfold search_issues.
  by rewrite (search_loop_failure _ _ _ _ _ H).
Qed.

Lemma search_issues_failure_returns_empty_witness :
  accumulated_at_failure 2 flaky_server 0%Z [] = Some [PStr "T-1"] /\
  search_issues 2 flaky_server = Some (Ok []).
Proof.
  split; [reflexivity|].
  apply (search_issues_failure_returns_empty 2 flaky_server [PStr "T-1"]).
  reflexivity.
Defined.

(** *** Normalization *)

Lemma get_str_field k d :
  str_field k d = true ->
  exists s, dict_get d k empty_str = PStr s /\
            (dict_lookup d k = None -> s = "").
Proof.
  unfold str_field, absent_or, dict_get.
  destruct (dict_lookup d k) as [v|]; intros H.
  - destruct v; try discriminate. eexists; split; [reflexivity | discriminate].
  - exists "". split; reflexivity.
Qed.

Lemma get_obj_field k P d :
  obj_field k P d = true -> P [] = true ->
  exists o, dict_get d k empty_dict = PDict o /\ P o = true /\
            (dict_lookup d k = None -> o = []).
Proof.
  unfold obj_field, absent_or, dict_get.
  destruct (dict_lookup d k) as [v|]; intros H H0.
  - destruct v; try discriminate.
    eexists; split; [reflexivity | split; [exact H | discriminate]].
  - exists []. repeat split; assumption.
Qed.

Lemma path_under k d o ks :
  dict_get d k empty_dict = PDict o -> ks <> [] ->
  path (PDict d) (k :: ks) = path (PDict o) ks.
Proof.
  unfold dict_get. simpl. destruct (dict_lookup d k) as [v|]; intros E Hks.
  - by subst.
  - injection E as <-. by destruct ks.
Qed.

(** Closes one "missing source, empty value" goal from the facts about
    the lookups that are in the context. *)
Ltac missing_source :=
  let Hpath := fresh "Hpath" in
  intros Hpath; simpl; try reflexivity;
  repeat match type of Hpath with
         | path (PDict ?d) (?k :: _) = None =>
             match goal with
             | E : dict_get d k empty_dict = PDict ?o |- _ =>
                 rewrite (path_under k d o _ E) in Hpath by done
             end
         end;
  try (f_equal; auto; fail);
  simpl in Hpath;
  match type of Hpath with
  | context [dict_lookup ?d ?k] =>
      destruct (dict_lookup d k) eqn:?; [discriminate | f_equal; auto]
  end.

(** Closes a goal about the normalization of a record of the expected
    shape, once the result of [parse_issue] has been computed. *)
Ltac parsed_ok Hno_sprint :=
  eexists; split; [reflexivity|]; split; [reflexivity|];
  split;
  [repeat (apply Forall_cons_2; [cbn beta iota; solve [missing_source]|]);
   apply Forall_nil_2|];
  split; [|exact Hno_sprint];
  let Hk := fresh in
  let Hc := fresh in
  intros Hk Hc;
  first [solve [clear Hk; revert Hc; missing_source]
        |solve [clear Hc; revert Hk; missing_source]].

Lemma get_nullable k Q d :
  absent_or (nullable Q) d k = true ->
  truthy (dict_get d k empty_dict) = false \/
  exists o, dict_get d k empty_dict = PDict o /\ Q o = true.
Proof.
  unfold absent_or, nullable, dict_get.
  destruct (dict_lookup d k) as [v|]; intros H; [|by left].
  apply orb_prop in H as [H|H].
  - left. by apply negb_true_iff.
  - right. destruct v; try discriminate. by eexists.
Qed.

Lemma sprint_name_ok f :
  absent_or sprint_shape f "customfield_10020" = true ->
  exists s,
    (if truthy (dict_get f "customfield_10020" (PList []))
     then match dict_get f "customfield_10020" (PList []) with
          | PList (first :: _) => get first "name" empty_str
          | _ => Ok empty_str
          end
     else Ok empty_str) = Ok (PStr s) /\
    (match dict_lookup f "customfield_10020" with
     | Some (PList (_ :: _)) => False
     | _ => True
     end -> s = "").
Proof.
  unfold absent_or, dict_get.
  destruct (dict_lookup f "customfield_10020") as [v|]; intros H.
  - destruct v as [| | | |[|first l]|];
      try (exists ""; split; [by destruct (truthy _) | done]).
    simpl in H. destruct first as [| | | | |o]; try discriminate.
    destruct (get_str_field _ _ H) as (s & E & _).
    exists s. simpl. by rewrite E.
  - by exists "".
Qed.

Lemma assignee_ok f :
  absent_or (nullable (str_field "displayName")) f "assignee" = true ->
  exists s,
    (if truthy (dict_get f "assignee" PNone)
     then get (dict_get f "assignee" empty_dict) "displayName" empty_str
     else Ok empty_str) = Ok (PStr s) /\
    (path (PDict f) ["assignee"; "displayName"] = None -> s = "").
Proof.
  unfold absent_or, nullable, dict_get. simpl.
  destruct (dict_lookup f "assignee") as [v|]; intros H; [|by exists ""].
  destruct (truthy v) eqn:Ht; [|by exists ""].
  destruct v as [| | | | |o]; try discriminate.
  destruct (get_str_field _ _ H) as (s & E & D).
  exists s. simpl. rewrite E. split; [done|].
  destruct (dict_lookup o "displayName"); [done | auto].
Qed.

(** C4 (as stated, refuted): on a record whose status is [null],
    [parse_issue] raises; on a record whose summary is [null] it returns
    [None], not a string, for the summary. *)
Lemma parse_issue_null_counterexample :
  parse_issue null_status = Raise AttributeError /\
  (forall p, parse_issue null_status <> Ok p) /\
  exists p, parse_issue null_summary = Ok p /\
            summary p = PNone /\ all_strings p = false.
Proof.
  split; [reflexivity|]. split; [discriminate|].
  eexists. split; [reflexivity|]. split; reflexivity.
Qed.

(** C4 (amended): on a record in which every key is absent or holds a value
    of the expected type ([null] being accepted for the parent and the
    assignee), [parse_issue] returns, every value of the result is a string,
    a value whose source is missing at any level is the empty string, the
    epic link is empty when neither the parent key nor the link field is
    there, and the sprint is empty when the sprint field is absent, is not a
    list, or is the empty list. *)
Theorem parse_issue_well_shaped raw :
  well_shaped raw = true ->
  exists p,
    parse_issue raw = Ok p /\ all_strings p = true /\
    Forall (fun '(field, source) =>
              path raw source = None -> field p = PStr "") string_fields /\
    (path raw ["fields"; "parent"; "key"] = None ->
     path raw ["fields"; "customfield_10014"] = None ->
     epic_link p = PStr "") /\
    (no_sprint raw = true -> sprint p = PStr "").
Proof.
  intros Hws. destruct raw as [| | | | |d]; try discriminate.
  simpl in Hws. apply andb_prop in Hws as [Hkey Hfields].
  destruct (get_str_field _ _ Hkey) as (vkey & Ekey & Dkey).
  destruct (get_obj_field _ _ _ Hfields eq_refl) as (f & Ef & Hf & Df).
  unfold fields_shape in Hf. rewrite !andb_true_iff in Hf.
  destruct Hf as ((((((((((Hsum & Hdesc) & Hstatus) & Hit) & Hcf14) & Hcf11)
                       & Hparent) & Hassignee) & Hcreated) & Hupdated)
                  & Hsprint).
  destruct (sprint_name_ok _ Hsprint) as (vsprint & Esprint & Dsprint).
  destruct (assignee_ok _ Hassignee) as (vassignee & Eassignee & Dassignee).
  destruct (get_str_field _ _ Hsum) as (vsum & Esum & Dsum).
  destruct (get_str_field _ _ Hdesc) as (vdesc & Edesc & Ddesc).
  destruct (get_str_field _ _ Hcf14) as (vcf14 & Ecf14 & Dcf14).
  destruct (get_str_field _ _ Hcf11) as (vcf11 & Ecf11 & Dcf11).
  destruct (get_str_field _ _ Hcreated) as (vcreated & Ecreated & Dcreated).
  destruct (get_str_field _ _ Hupdated) as (vupdated & Eupdated & Dupdated).
  destruct (get_obj_field _ _ _ Hstatus eq_refl) as (st & Est & Hst & Dst).
  apply andb_prop in Hst as [Hstname Hstcat].
  destruct (get_str_field _ _ Hstname) as (vstatus & Estatus & Dstatus).
  destruct (get_obj_field _ _ _ Hstcat eq_refl) as (sc & Esc & Hsc & Dsc).
  destruct (get_str_field _ _ Hsc) as (vcat & Ecat & Dcat).
  destruct (get_obj_field _ _ _ Hit eq_refl) as (it & Eit & Hitname & Dit).
  destruct (get_str_field _ _ Hitname) as (vtype & Etype & Dtype).
  unfold no_sprint, string_fields.
  rewrite !(path_under _ _ _ _ Ef) by done.
  unfold parse_issue. cbn [get mbind result_bind bind].
  rewrite Ef, Ekey. cbn [get mbind result_bind bind].
  rewrite Esprint, Eassignee, Esum, Edesc, Ecf11, Ecreated, Eupdated, Est, Eit.
  cbn [get mbind result_bind bind].
  rewrite Estatus, Esc. cbn [get mbind result_bind bind].
  rewrite Ecat, Etype.
  assert (Hno_sprint :
    match path (PDict f) ["customfield_10020"] with
    | Some (PList (_ :: _)) => false
    | _ => true
    end = true -> PStr vsprint = PStr "").
  { intros Hs. f_equal. apply Dsprint. simpl in Hs.
    by destruct (dict_lookup f _) as [[| | | |[|??]|]|]. }
  destruct (get_nullable _ _ _ Hparent) as [Hp | (p & Ep & Hp)].
  - rewrite Hp. cbn [get mbind result_bind bind]. simpl negb. cbv iota.
    rewrite Ecf14. parsed_ok Hno_sprint.
  - rewrite Ep.
    apply andb_prop in Hp as [Hpkey Hpfields].
    destruct (get_str_field _ _ Hpkey) as (vpkey & Epkey & Dpkey).
    destruct (get_obj_field _ _ _ Hpfields eq_refl) as (pf & Epf & Hpf & Dpf).
    apply andb_prop in Hpf as [Hpsum Hptype].
    destruct (get_str_field _ _ Hpsum) as (vpsum & Epsum & Dpsum).
    destruct (get_obj_field _ _ _ Hptype eq_refl) as (pt & Ept & _ & _).
    cbn [get mbind result_bind bind]. rewrite Epkey, Epf.
    cbn [get mbind result_bind bind]. rewrite Epsum, Ept.
    cbn [get mbind result_bind bind].
    destruct (truthy (PDict p)); cbn [mbind result_bind bind];
      [destruct (eq_str (dict_get pt "name" PNone) "Epic");
       cbn [mbind result_bind bind]; [destruct vpkey as [|c vpkey]|]|];
      simpl negb; cbv iota; cbn [mbind result_bind bind];
      rewrite ?Ecf14; parsed_ok Hno_sprint.
Qed.

Lemma parse_issue_well_shaped_witness :
  well_shaped story = true /\
  exists p,
    parse_issue story = Ok p /\ all_strings p = true /\
    Forall (fun '(field, source) =>
              path story source = None -> field p = PStr "") string_fields /\
    (path story ["fields"; "parent"; "key"] = None ->
     path story ["fields"; "customfield_10014"] = None ->
     epic_link p = PStr "") /\
    (no_sprint story = true -> sprint p = PStr "").
Proof.
  split; [reflexivity|].
  apply (parse_issue_well_shaped story). reflexivity.
Defined.

(** *** Grouping *)

Lemma group_step_inv seen acc x :
  group_inv seen acc -> group_inv (seen ++ [x]) (group_step acc x).
Proof.
  destruct acc as [epics standalone].
  intros (Hepics & Hsub & Hnot & Hreg). unfold group_step. simpl in *.
  assert (Hold : forall k g,
    (k, g) ∈ epics ->
    EpicGroup.children g `sublist_of` seen ++ [x] /\
    Forall (fun c => is_epic c = false) (EpicGroup.children g) /\
    ((forall i, i ∈ seen ++ [x] -> is_epic i = true -> key i <> k) ->
     EpicGroup.epic_name g = "")).
  { intros k g Hin. destruct (Hepics k g Hin) as (H1 & H2 & H3).
    split; [by apply sublist_inserts_r|]. split; [done|].
    intros Hno. apply H3. intros i Hi. apply Hno, elem_of_app. by left. }
  destruct (is_epic x) eqn:Hx.
  - split; [|split; [by apply sublist_inserts_r | split; [done|]]].
    + intros k g [[-> ->]|Hin]%OrderedDictProps.elem_of_set; [|by apply Hold].
      simpl. split; [apply sublist_nil_l|]. split; [done|].
      intros Hno. exfalso. eapply Hno; [|exact Hx|done].
      apply elem_of_app. right. by left.
    + intros i [Hi| ->%list_elem_of_singleton]%elem_of_app Hie.
      * by apply OrderedDictProps.set_keys_mono, Hreg.
      * apply OrderedDictProps.set_keys_here.
  - assert (Hreg' : forall epics' : list (string * EpicGroup.t),
              epics'.*1 = epics.*1 \/
                (forall k, k ∈ epics.*1 -> k ∈ epics'.*1) ->
              forall i, i ∈ seen ++ [x] -> is_epic i = true ->
                        key i ∈ epics'.*1).
    { intros epics' He i [Hi| ->%list_elem_of_singleton]%elem_of_app Hie;
        [|congruence].
      destruct He as [-> | He]; [by apply Hreg | by apply He, Hreg]. }
    destruct (Str.truthy (epic_link x)).
    + split; [|split; [by apply sublist_inserts_r | split; [done|]]].
      * set (epics1 := if negb (OrderedDict.mem epics (epic_link x)) then _
                       else epics).
        assert (Hold1 : forall k g,
          (k, g) ∈ epics1 ->
          EpicGroup.children g `sublist_of` seen /\
          Forall (fun c => is_epic c = false) (EpicGroup.children g) /\
          ((forall i, i ∈ seen ++ [x] -> is_epic i = true -> key i <> k) ->
           EpicGroup.epic_name g = "")).
        { intros k g Hin. subst epics1.
          destruct (negb _).
          - apply OrderedDictProps.elem_of_set in Hin as [[-> ->]|Hin].
            + simpl. split; [apply sublist_nil_l|]. by split.
            + destruct (Hepics k g Hin) as (H1 & H2 & H3).
              split; [done|]. split; [done|].
              intros Hno. apply H3. intros i Hi. apply Hno, elem_of_app.
              by left.
          - destruct (Hepics k g Hin) as (H1 & H2 & H3).
            split; [done|]. split; [done|].
            intros Hno. apply H3. intros i Hi. apply Hno, elem_of_app.
            by left. }
        intros k g [Hin|(-> & g0 & Hin & ->)]%OrderedDictProps.elem_of_alter.
        -- destruct (Hold1 k g Hin) as (H1 & H2 & H3).
           split; [by apply sublist_inserts_r|]. by split.
        -- destruct (Hold1 _ g0 Hin) as (H1 & H2 & H3). simpl.
           split; [by apply sublist_app|].
           split; [|done].
           apply Forall_app. split; [done|]. by apply Forall_singleton.
      * apply Hreg'. right. intros k Hk. cbn [fst].
        rewrite OrderedDictProps.alter_keys.
        destruct (negb _); [by apply OrderedDictProps.set_keys_mono | done].
    + split; [by apply Hold|].
      split; [by apply sublist_app|].
      split; [|apply Hreg'; by left].
      apply Forall_app. split; [done|]. by apply Forall_singleton.
Qed.

Lemma group_issues_inv issues :
  group_inv issues (fold_left group_step issues ([], [])).
Proof.
  apply (fold_left_invariant group_step group_inv).
  - split; [|split; [done | split; [done|]]].
    + by intros k g ?%elem_of_nil.
    + by intros i ?%elem_of_nil.
  - intros. by apply group_step_inv.
Qed.

Lemma group_issues_by_parent_unfold issues :
  let acc := fold_left group_step issues ([], []) in
  epics (group_issues_by_parent issues) = acc.1 /\
  standalone (group_issues_by_parent issues) = acc.2.
Proof. unfold group_issues_by_parent. by destruct (fold_left _ _ _). Qed.

(** What the invariant says of the result of the grouping. *)
Lemma group_issues_by_parent_inv issues :
  group_inv issues
    (epics (group_issues_by_parent issues),
     standalone (group_issues_by_parent issues)).
Proof.
  destruct (group_issues_by_parent_unfold issues) as [-> ->].
  rewrite <- surjective_pairing. apply group_issues_inv.
Qed.

(** C7: the children of every group of the output are issues of the input,
    in the order in which they stand in the input. *)
Theorem group_issues_by_parent_order_preserving issues k g :
  (k, g) ∈ epics (group_issues_by_parent issues) ->
  EpicGroup.children g `sublist_of` issues.
Proof.
  intros Hin.
  destruct (group_issues_by_parent_inv issues) as (Hepics & _).
  by destruct (Hepics k g Hin) as [? _].
Qed.

Lemma group_issues_by_parent_order_preserving_witness :
  let g := {| EpicGroup.epic_key := "E-1"; EpicGroup.epic_name := "Platform";
              EpicGroup.children := [story_T1; story_T2];
              EpicGroup.status := None |} in
  ("E-1", g) ∈ epics (group_issues_by_parent sprint_issues) /\
  EpicGroup.children g `sublist_of` sprint_issues.
Proof.
  assert (H : ("E-1", {| EpicGroup.epic_key := "E-1";
                         EpicGroup.epic_name := "Platform";
                         EpicGroup.children := [story_T1; story_T2];
                         EpicGroup.status := None |})
              ∈ epics (group_issues_by_parent sprint_issues)).
  { vm_compute. constructor. }
  split; [exact H|].
  exact (group_issues_by_parent_order_preserving sprint_issues _ _ H).
Defined.

(** C10: an issue that the grouping puts among the children of a group or
    in the standalone list is not an epic (whatever its epic link), and
    every epic of the input has a group under its key. *)
Theorem group_issues_by_parent_epics_only_registered issues c :
  c ∈ issues ->
  (c ∈ standalone (group_issues_by_parent issues) \/
   (exists k g, (k, g) ∈ epics (group_issues_by_parent issues) /\
                c ∈ EpicGroup.children g) ->
   issuetype c <> "Epic") /\
  (issuetype c = "Epic" ->
   key c ∈ (epics (group_issues_by_parent issues)).*1).
Proof.
  intros Hc.
  destruct (group_issues_by_parent_inv issues)
    as (Hepics & _ & Hstandalone & Hreg). simpl in *.
  split.
  - intros H. apply String.eqb_neq. fold (is_epic c).
    destruct H as [Hs | (k & g & Hin & Hch)].
    + by eapply (proj1 (Forall_forall _ _) Hstandalone).
    + destruct (Hepics k g Hin) as (_ & Hnot & _).
      by eapply (proj1 (Forall_forall _ _) Hnot).
  - intros Ht. apply Hreg; [done|]. by apply String.eqb_eq.
Qed.

Lemma group_issues_by_parent_epics_only_registered_witness :
  epic_E2 ∈ sprint_issues /\
  (epic_E2 ∈ standalone (group_issues_by_parent sprint_issues) \/
   (exists k g, (k, g) ∈ epics (group_issues_by_parent sprint_issues) /\
                epic_E2 ∈ EpicGroup.children g) ->
   issuetype epic_E2 <> "Epic") /\
  (issuetype epic_E2 = "Epic" ->
   key epic_E2 ∈ (epics (group_issues_by_parent sprint_issues)).*1).
Proof.
  assert (H : epic_E2 ∈ sprint_issues) by (vm_compute; do 2 constructor).
  split; [exact H|].
  exact (group_issues_by_parent_epics_only_registered sprint_issues epic_E2 H).
Defined.

End JiraClientProps.

(** ** Properties of the report generator *)

Module ReportProps.
Import JiraClient SprintReportGenerator Invariants Examples.

(** *** Status of an epic *)

Lemma equal_ignoring_case_lower a b :
  equal_ignoring_case a b = true <-> Str.lower a = Str.lower b.
Proof.
  revert b. induction a as [|x a IH]; intros [|y b]; simpl; try done.
  rewrite andb_true_iff, Ascii.eqb_eq, IH.
  split; [by intros [-> ->] | by intros [= -> ->]].
Qed.

Lemma is_done_ignoring_case c :
  is_done c = true <-> equal_ignoring_case (status_category c) "done" = true.
Proof.
  unfold is_done. rewrite String.eqb_eq, equal_ignoring_case_lower.
  done.
Qed.

Lemma sum_of_ones {A : Type} (l : list A) :
  sum_list ((fun _ => 1) <$> l) = length l.
Proof. induction l; simpl; [done | by f_equal]. Qed.

Lemma filter_length_all {A : Type} (f : A -> bool) (l : list A) :
  length (List.filter f l) = length l <-> forall x, x ∈ l -> f x = true.
Proof.
  induction l as [|y l IH]; simpl.
  - split; [by intros _ x ?%elem_of_nil | done].
  - pose proof (List.filter_length_le f l) as Hle.
    destruct (f y) eqn:Hy; simpl.
    + split.
      * intros [= Hlen] x [->|Hx]%elem_of_cons; [done|].
        by apply IH.
      * intros Hall. f_equal. apply IH. intros x Hx. apply Hall. by right.
    + split; [lia|].
      intros Hall. rewrite Hall in Hy; [done | by left].
Qed.

(** C2: the status is "Unknown" exactly when there is no child, "Done"
    exactly when there are children and the status category of each is
    "done" up to case, and "In Progress" exactly in the remaining case. *)
Theorem determine_epic_status_spec (epic_data : EpicGroup.t) :
  let children := EpicGroup.children epic_data in
  let all_done :=
    forall c, c ∈ children ->
              equal_ignoring_case (status_category c) "done" = true in
  (determine_epic_status epic_data = "Unknown" <-> children = []) /\
  (determine_epic_status epic_data = "Done" <->
     children <> [] /\ all_done) /\
  (determine_epic_status epic_data = "In Progress" <->
     children <> [] /\ ~ all_done).
Proof.
  unfold determine_epic_status.
  destruct (EpicGroup.children epic_data) as [|c0 cs]; cbv beta iota zeta.
  - split; [done|]. split; (split; [done | by intros [? _]]).
  - set (children := c0 :: cs).
    assert (Hiff : (forall c, c ∈ children ->
                      equal_ignoring_case (status_category c) "done" = true)
                   <-> length (List.filter is_done children)
                       = length children).
    { rewrite filter_length_all. split; intros H c Hc.
      - by apply is_done_ignoring_case, H.
      - by apply is_done_ignoring_case, H. }
    rewrite sum_of_ones.
    destruct (Nat.eqb_spec (length (List.filter is_done children))
                (length children)) as [Heq|Hne].
    + split; [done|]. split.
      * split; [intros _; split; [done | by apply Hiff] | done].
      * split; [done | intros [_ Hnot]; exfalso; by apply Hnot, Hiff].
    + split; [done|]. split.
      * split; [done | intros [_ Hall]; exfalso; by apply Hne, Hiff].
      * split; [intros _; split; [done | intros Hall; by apply Hne, Hiff]
               | done].
Qed.

(** *** Reconciliation *)

Section reconciliation.
Variable parsed_issues : list Issue.
Variable fetch_epics : gset string -> list Issue.

Local Abbreviation valid := (key_is_valid parsed_issues).
Local Abbreviation in_jql k := (k ∈ epics_in_jql parsed_issues).

Lemma elem_of_filter_valid (c : Issue) (l : list Issue) :
  c ∈ List.filter valid l <->
  c ∈ l /\ key c ∈ valid_issue_keys parsed_issues.
Proof.
  rewrite !list_elem_of_In, List.filter_In. unfold key_is_valid.
  by rewrite bool_decide_eq_true.
Qed.

Lemma filter_valid_idemp (l : list Issue) :
  List.filter valid (List.filter valid l) = List.filter valid l.
Proof.
  induction l as [|c l IH]; simpl; [done|].
  destruct (valid c) eqn:Hc; simpl; [|done].
  by rewrite Hc, IH.
Qed.

(** An entry that the filtering loop keeps as it is: its children are all
    issues of the query, and it is an epic of the query or has a child. *)
Local Abbreviation stable k g :=
  (List.filter valid (EpicGroup.children g) = EpicGroup.children g /\
   (in_jql k \/ EpicGroup.children g <> [])).

Lemma filter_step_elem acc k0 g0 k g' :
  (k, g') ∈ filter_step parsed_issues acc (k0, g0) ->
  (k, g') ∈ acc \/
  (k = k0 /\
   g' = EpicGroup.set_children g0
          (List.filter valid (EpicGroup.children g0)) /\
   (in_jql k0 \/ List.filter valid (EpicGroup.children g0) <> [])).
Proof.
  unfold filter_step.
  destruct (_ || existsb _ _); [|by left].
  destruct (_ || bool_decide _) eqn:Hkeep; [|by left].
  intros [[-> ->]|Hin]%OrderedDictProps.elem_of_set; [|by left].
  right. split; [done|]. split; [done|].
  apply orb_prop in Hkeep as [Hne|Hin%bool_decide_eq_true]; [|by left].
  right. by destruct (List.filter _ _).
Qed.

Lemma filter_step_keys acc item :
  NoDup acc.*1 -> NoDup (filter_step parsed_issues acc item).*1.
Proof.
  destruct item as [k g]. unfold filter_step.
  destruct (_ || existsb _ _); [|done].
  destruct (_ || bool_decide _); [|done].
  apply OrderedDictProps.NoDup_set_keys.
Qed.

(** Where the entries of the filtered dictionary come from. *)
Lemma filtered_epics_origin (es : list (string * EpicGroup.t)) k g' :
  (k, g') ∈ fold_left (filter_step parsed_issues) es [] ->
  exists g,
    (k, g) ∈ es /\
    g' = EpicGroup.set_children g
           (List.filter valid (EpicGroup.children g)) /\
    (in_jql k \/ EpicGroup.children g' <> []).
Proof.
  revert k g'.
  apply (fold_left_invariant (filter_step parsed_issues)
           (fun seen acc => forall k g', (k, g') ∈ acc ->
              exists g, (k, g) ∈ seen /\
                g' = EpicGroup.set_children g
                       (List.filter valid (EpicGroup.children g)) /\
                (in_jql k \/ EpicGroup.children g' <> []))).
  - by intros k g' ?%elem_of_nil.
  - intros seen acc [k0 g0] IH k g' [Hin|(-> & -> & Hkeep)]%filter_step_elem.
    + destruct (IH k g' Hin) as (g & ? & ? & ?).
      exists g. split; [apply elem_of_app; by left | done].
    + exists g0. split; [apply elem_of_app; right; by left | done].
Qed.

Lemma filtered_epics_NoDup (es : list (string * EpicGroup.t)) :
  NoDup (fold_left (filter_step parsed_issues) es []).*1.
Proof.
  apply (fold_left_invariant (filter_step parsed_issues)
           (fun _ acc => NoDup acc.*1)).
  - apply NoDup_nil_2.
  - intros _ acc item. apply filter_step_keys.
Qed.

Lemma filter_step_stable acc k g :
  stable k g -> k ∉ acc.*1 ->
  filter_step parsed_issues acc (k, g) = acc ++ [(k, g)].
Proof.
  intros [Hvalid Hkeep] Hfresh. unfold filter_step.
  rewrite Hvalid.
  assert (Hsame : EpicGroup.set_children g (EpicGroup.children g) = g)
    by by destruct g.
  rewrite Hsame.
  destruct (decide (in_jql k)) as [Hin|Hnin].
  - rewrite (bool_decide_eq_true_2 _ Hin), orb_true_r. simpl.
    by apply OrderedDictProps.set_fresh.
  - destruct Hkeep as [?|Hne]; [done|].
    destruct (EpicGroup.children g) as [|c cs] eqn:Hch; [done|].
    assert (Hc : valid c = true).
    { assert (Hc : c ∈ List.filter valid (c :: cs))
        by (rewrite Hvalid; by left).
      apply list_elem_of_In, List.filter_In in Hc. tauto. }
    simpl. rewrite Hc, orb_true_r. simpl.
    by apply OrderedDictProps.set_fresh.
Qed.

Lemma fold_filter_step_stable (es acc : list (string * EpicGroup.t)) :
  NoDup (acc ++ es).*1 ->
  (forall k g, (k, g) ∈ es -> stable k g) ->
  fold_left (filter_step parsed_issues) es acc = acc ++ es.
Proof.
  revert acc. induction es as [|[k g] es IH]; intros acc Hnd Hst;
    cbn [fold_left].
  - by rewrite app_nil_r.
  - rewrite filter_step_stable.
    + rewrite IH.
      * by rewrite <- app_assoc.
      * by rewrite <- app_assoc.
      * intros k' g' Hin. apply Hst. by right.
    + apply Hst. by left.
    + rewrite fmap_app in Hnd. apply NoDup_app in Hnd as (_ & Hdis & _).
      intros Hk. apply (Hdis k Hk). by left.
Qed.

(** C6: reconciling the result of a reconciliation changes nothing. *)
Theorem reconcile_idempotent (grouped_data : GroupedResult) :
  reconcile parsed_issues fetch_epics
    (reconcile parsed_issues fetch_epics grouped_data)
  = reconcile parsed_issues fetch_epics grouped_data.
Proof.
  unfold reconcile. simpl. f_equal.
  - rewrite fold_filter_step_stable; [done | apply filtered_epics_NoDup |].
    intros k g' (g & _ & -> & Hkeep)%filtered_epics_origin.
    simpl in *. split; [apply filter_valid_idemp | done].
  - apply filter_valid_idemp.
Qed.

(** C1: an issue that the final result holds, as a child of a group or
    as a standalone issue, is one of the issues of the query and its key
    is in the key set of the query; what the supplementary query returns
    has no part in the groups and the standalone list. *)
Theorem fetch_sprint_data_keys_in_query (c : Issue) :
  c ∈ standalone (fetch_sprint_data parsed_issues fetch_epics) \/
  (exists k g, (k, g) ∈ epics (fetch_sprint_data parsed_issues fetch_epics)
               /\ c ∈ EpicGroup.children g) ->
  key c ∈ valid_issue_keys parsed_issues /\
  c ∈ parsed_issues /\
  forall fetch_epics',
    epics (fetch_sprint_data parsed_issues fetch_epics')
    = epics (fetch_sprint_data parsed_issues fetch_epics) /\
    standalone (fetch_sprint_data parsed_issues fetch_epics')
    = standalone (fetch_sprint_data parsed_issues fetch_epics).
Proof.
  destruct (JiraClientProps.group_issues_by_parent_inv parsed_issues)
    as (Hepics & Hstandalone & _). simpl in *.
  unfold fetch_sprint_data, reconcile. simpl.
  intros [Hs | (k & g' & (g & Hin & -> & _)%filtered_epics_origin & Hc)].
  - apply elem_of_filter_valid in Hs as [Hs Hk].
    split; [done|]. split; [by eapply elem_of_sublist | done].
  - simpl in Hc. apply elem_of_filter_valid in Hc as [Hc Hk].
    destruct (Hepics k g Hin) as (Hsub & _).
    split; [done|]. split; [by eapply elem_of_sublist | done].
Qed.

End reconciliation.

Lemma fetch_sprint_data_keys_in_query_witness :
  (story_T9 ∈ standalone (fetch_sprint_data sprint_issues fetch_E9) \/
   (exists k g, (k, g) ∈ epics (fetch_sprint_data sprint_issues fetch_E9)
                /\ story_T9 ∈ EpicGroup.children g)) /\
  key story_T9 ∈ valid_issue_keys sprint_issues /\
  story_T9 ∈ sprint_issues /\
  forall fetch_epics',
    epics (fetch_sprint_data sprint_issues fetch_epics')
    = epics (fetch_sprint_data sprint_issues fetch_E9) /\
    standalone (fetch_sprint_data sprint_issues fetch_epics')
    = standalone (fetch_sprint_data sprint_issues fetch_E9).
Proof.
  assert (H :
    story_T9 ∈ standalone (fetch_sprint_data sprint_issues fetch_E9) \/
    (exists k g, (k, g) ∈ epics (fetch_sprint_data sprint_issues fetch_E9)
                 /\ story_T9 ∈ EpicGroup.children g)).
  { right. exists "E-9".
    exists {| EpicGroup.epic_key := "E-9"; EpicGroup.epic_name := "";
              EpicGroup.children := [story_T9]; EpicGroup.status := None |}.
    split; vm_compute; repeat constructor. }
  split; [exact H|].
  exact (fetch_sprint_data_keys_in_query sprint_issues fetch_E9 story_T9 H).
Defined.

(** *** Rows of the table *)

Lemma elem_of_insert_entry x l e :
  e ∈ insert_entry x l <-> e = x \/ e ∈ l.
Proof.
  induction l as [|y l IH]; simpl.
  - rewrite list_elem_of_singleton, elem_of_nil. tauto.
  - destruct (_ <? _); rewrite !elem_of_cons; [tauto|].
    rewrite IH. tauto.
Qed.

Lemma elem_of_fold_insert_entry l acc e :
  e ∈ fold_left (fun acc x => insert_entry x acc) l acc <->
  e ∈ l \/ e ∈ acc.
Proof.
  revert acc. induction l as [|x l IH]; intros acc; simpl.
  - rewrite elem_of_nil. tauto.
  - rewrite IH, elem_of_insert_entry, elem_of_cons. tauto.
Qed.

(** The rows of the sorted table are the entries of the epics and of the
    standalone issues. *)
Lemma elem_of_epic_entries_sorted grouped_data e :
  e ∈ epic_entries_sorted grouped_data <->
  (exists item, item ∈ epics grouped_data /\
     e = epic_entry (default ∅ (epic_details grouped_data)) item) \/
  (exists issue, issue ∈ standalone grouped_data /\
     e = standalone_entry issue).
Proof.
  unfold epic_entries_sorted, epic_entries.
  rewrite elem_of_fold_insert_entry, elem_of_app, !list_elem_of_fmap,
    elem_of_nil.
  split.
  - intros [[(item & -> & ?)|(issue & -> & ?)]|[]]; [left|right]; eauto.
  - intros [(item & ? & ->)|(issue & ? & ->)]; left; [left|right]; eauto.
Qed.

(** C8: the status column of the row of an epic is the status of its
    record in [epic_details] when that is a non-empty string, else the
    status of the group entry when that is a non-empty string, and the
    status derived from the children only when there is neither. *)
Theorem epic_row_status grouped_data k g :
  (k, g) ∈ epics grouped_data ->
  let details := default ∅ (epic_details grouped_data) in
  let row := epic_entry details (k, g) in
  let no_status_in_details :=
    forall info, details !! k = Some info -> status info = "" in
  row ∈ epic_entries_sorted grouped_data /\
  Entry.epic_key row = k /\
  (forall info, details !! k = Some info -> status info <> "" ->
     Entry.status row = status info) /\
  (forall s, no_status_in_details ->
     EpicGroup.status g = Some s -> s <> "" -> Entry.status row = s) /\
  (no_status_in_details ->
   (forall s, EpicGroup.status g = Some s -> s = "") ->
   Entry.status row = determine_epic_status g).
Proof.
  intros Hin details row no_status.
  split; [apply elem_of_epic_entries_sorted; left; by exists (k, g)|].
  split; [done|].
  subst row no_status. unfold epic_entry. simpl.
  unfold Str.or_opt, Str.or, Str.truthy.
  destruct (details !! k) as [info|]; simpl.
  - destruct (String.eqb_spec (status info) "") as [He|Hne]; simpl.
    + split; [by intros ? [= <-] ?|].
      destruct (EpicGroup.status g) as [s|].
      * destruct (String.eqb_spec s "") as [->|Hs]; simpl.
        -- split; [by intros ? _ [= <-] ?|done].
        -- split; [by intros ? _ [= <-] _|].
           intros _ H. by specialize (H s eq_refl).
      * split; [by intros ? _ [=]|done].
    + split; [by intros ? [= <-] _|].
      split.
      * intros s H. by specialize (H info eq_refl).
      * intros H. by specialize (H info eq_refl).
  - split; [by intros ? [=]|].
    destruct (EpicGroup.status g) as [s|].
    + destruct (String.eqb_spec s "") as [->|Hs]; simpl.
      * split; [by intros ? _ [= <-] ?|done].
      * split; [by intros ? _ [= <-] _|].
        intros _ H. by specialize (H s eq_refl).
    + split; [by intros ? _ [=]|done].
Qed.

Lemma group_E9_in_result :
  ("E-9", group_E9) ∈ epics (fetch_sprint_data sprint_issues fetch_E9).
Proof. vm_compute. repeat constructor. Qed.

Lemma epic_row_status_witness :
  ("E-9", group_E9) ∈ epics (fetch_sprint_data sprint_issues fetch_E9) /\
  Entry.status
    (epic_entry
       (default ∅ (epic_details (fetch_sprint_data sprint_issues fetch_E9)))
       ("E-9", group_E9)) = "Open".
Proof.
  split; [exact group_E9_in_result|].
  destruct (epic_row_status (fetch_sprint_data sprint_issues fetch_E9)
              "E-9" group_E9 group_E9_in_result) as (_ & _ & Hs & _).
  apply (Hs epic_E9); [vm_compute; reflexivity | discriminate].
Defined.

(** C5 (as stated, refuted): an epic of the query with the name "Platform"
    and the summary "Upgrade the platform" is described by its summary. *)
Lemma epic_description_counterexample :
  exists row,
    row ∈ epic_entries_sorted (fetch_sprint_data [epic_E1] fetch_nothing) /\
    Entry.epic_key row = key epic_E1 /\
    Entry.description row = "Upgrade the platform" /\
    claimed_description epic_E1 = "Platform" /\
    Entry.description row <> claimed_description epic_E1.
Proof.
  eexists. split; [vm_compute; constructor|].
  split; [reflexivity|]. split; [reflexivity|]. split; [reflexivity|].
  discriminate.
Qed.

(** C5 (amended): the description of the row of an epic is the summary of
    its record in [epic_details] when that is not empty, else the epic name
    of that record when that is not empty, else the name of the group when
    that is not empty, else "Epic {key}"; the description of the row of a
    standalone issue is the summary of the issue. *)
Theorem row_description grouped_data row :
  row ∈ epic_entries_sorted grouped_data ->
  (exists k g,
     (k, g) ∈ epics grouped_data /\ Entry.epic_key row = k /\
     Entry.description row =
       let info := default ∅ (epic_details grouped_data) !! k in
       let from_details field := default "" (field <$> info) in
       if negb (String.eqb (from_details summary) "")
       then from_details summary
       else if negb (String.eqb (from_details epic_name) "")
       then from_details epic_name
       else if negb (String.eqb (EpicGroup.epic_name g) "")
       then EpicGroup.epic_name g
       else "Epic " +:+ k) \/
  (exists issue,
     issue ∈ standalone grouped_data /\ Entry.epic_key row = key issue /\
     Entry.description row = summary issue).
Proof.
  intros [([k g] & Hin & ->)|(issue & Hin & ->)]%elem_of_epic_entries_sorted.
  - left. exists k, g. split; [done|]. split; [done|].
    unfold epic_entry. simpl.
    unfold Str.or_opt, Str.or, Str.truthy.
    by destruct (default ∅ (epic_details grouped_data) !! k) as [info|].
  - right. by exists issue.
Qed.

Lemma row_description_witness :
  exists row,
    row ∈ epic_entries_sorted (fetch_sprint_data [epic_E1] fetch_nothing) /\
    ((exists k g,
        (k, g) ∈ epics (fetch_sprint_data [epic_E1] fetch_nothing) /\
        Entry.epic_key row = k /\
        Entry.description row =
          let info :=
            default ∅ (epic_details
                         (fetch_sprint_data [epic_E1] fetch_nothing)) !! k in
          let from_details field := default "" (field <$> info) in
          if negb (String.eqb (from_details summary) "")
          then from_details summary
          else if negb (String.eqb (from_details epic_name) "")
          then from_details epic_name
          else if negb (String.eqb (EpicGroup.epic_name g) "")
          then EpicGroup.epic_name g
          else "Epic " +:+ k) \/
     (exists issue,
        issue ∈ standalone (fetch_sprint_data [epic_E1] fetch_nothing) /\
        Entry.epic_key row = key issue /\
        Entry.description row = summary issue)).
Proof.
  assert (H :
    {| Entry.epic_key := "E-1"; Entry.description := "Upgrade the platform";
       Entry.targeted_sprint := ""; Entry.status := "Open";
       Entry.details := "0 tasks tracked." |}
    ∈ epic_entries_sorted (fetch_sprint_data [epic_E1] fetch_nothing))
    by (vm_compute; constructor).
  eexists. split; [exact H|].
  exact (row_description _ _ H).
Defined.

(** *** Summary of a reconciled epic *)

Lemma generate_epic_summary_unnamed (epic_data : EpicGroup.t) :
  EpicGroup.epic_name epic_data = "" ->
  generate_epic_summary epic_data =
  generic_summary (length (EpicGroup.children epic_data))
    (length (List.filter is_done (EpicGroup.children epic_data))).
Proof. unfold generate_epic_summary. by intros ->. Qed.

(** C9: a group of the final result whose key is the key of no epic of
    the query has the empty name, its summary is the count-based one, and so
    is the details column of its row whatever [epic_details] holds. *)
Theorem reconciled_epic_generic_summary parsed_issues fetch_epics k g :
  (k, g) ∈ epics (fetch_sprint_data parsed_issues fetch_epics) ->
  (forall i, i ∈ parsed_issues -> issuetype i = "Epic" -> key i <> k) ->
  let generic :=
    generic_summary (length (EpicGroup.children g))
      (length (List.filter is_done (EpicGroup.children g))) in
  EpicGroup.epic_name g = "" /\
  generate_epic_summary g = generic /\
  forall epic_details : gmap string Issue,
    Entry.details (epic_entry epic_details (k, g)) = generic.
Proof.
  unfold fetch_sprint_data, reconcile. simpl.
  intros (g0 & Hin & -> & _)%filtered_epics_origin Hno.
  destruct (JiraClientProps.group_issues_by_parent_inv parsed_issues)
    as (Hepics & _). simpl in Hepics.
  destruct (Hepics k g0 Hin) as (_ & _ & Hname).
  assert (Hempty : EpicGroup.epic_name g0 = "").
  { apply Hname. intros i Hi Hepic. apply Hno; [done|].
    by apply String.eqb_eq. }
  simpl. split; [done|].
  split; [by apply generate_epic_summary_unnamed|].
  intros epic_details. by apply generate_epic_summary_unnamed.
Qed.

Lemma reconciled_epic_generic_summary_witness :
  ("E-9", group_E9) ∈ epics (fetch_sprint_data sprint_issues fetch_E9) /\
  (forall i, i ∈ sprint_issues -> issuetype i = "Epic" -> key i <> "E-9") /\
  EpicGroup.epic_name group_E9 = "" /\
  generate_epic_summary group_E9 = "Completed all 1 related tasks." /\
  forall epic_details : gmap string Issue,
    Entry.details (epic_entry epic_details ("E-9", group_E9))
    = "Completed all 1 related tasks.".
Proof.
  assert (Hno : forall i, i ∈ sprint_issues -> issuetype i = "Epic" ->
                          key i <> "E-9").
  { intros i Hi. unfold sprint_issues in Hi.
    repeat (apply elem_of_cons in Hi as [->|Hi]); try discriminate.
    by apply elem_of_nil in Hi. }
  split; [exact group_E9_in_result|]. split; [exact Hno|].
  exact (reconciled_epic_generic_summary sprint_issues fetch_E9 "E-9"
           group_E9 group_E9_in_result Hno).
Defined.

End ReportProps.

(** ** The examples of the specification, computed *)

Module WorkedExamples.
Import JiraClient SprintReportGenerator Examples.

(** An epic of the query with a finished and an unfinished story. *)
Example epic_with_two_stories :
  let grouped_data :=
    fetch_sprint_data [epic_E1; story_T1; story_T2] fetch_nothing in
  (EpicGroup.children <$> (epics grouped_data).*2)
    = [[story_T1; story_T2]] /\
  standalone grouped_data = [] /\
  (determine_epic_status <$> (epics grouped_data).*2) = ["In Progress"] /\
  (generate_epic_summary <$> (epics grouped_data).*2)
    = ["Completed 1 of 2 tasks."].
Proof. vm_compute. repeat split. Qed.

(** A story whose epic is not in the query: the epic is fetched, and its
    row is described by what was fetched. *)
Example story_of_an_epic_outside_the_query :
  elements (epic_keys_to_fetch [story_T9]) = ["E-9"] /\
  table_row <$> epic_entries_sorted (fetch_sprint_data [story_T9] fetch_E9)
  = ["| [E-9](https://hpe.atlassian.net/browse/E-9) | Mesh rollout |  | Open | Completed all 1 related tasks. |"].
Proof. vm_compute. repeat split. Qed.

(** The details of a standalone issue are cut at 200 characters. *)
Example details_truncated :
  let text := String.concat "" (replicate 30 "0123456789") in
  String.length text = 300 /\
  String.length
    (Entry.details (standalone_entry (issue "S-2" "Task" "" "" text "" "")))
  = 200.
Proof. vm_compute. repeat split. Qed.

(** One cluster, two clusters. *)
Example cluster_plural :
  istio_rollout_summary "istio rollout 1.20 - 1.22"
    [story_T9; story_T9;
     issue "T-7" "Story" "E-9" "" "Roll out (egress dev)" "Closed" "Done"] 3
  = "Completed Istio 1.20 to 1.22 rollout:<br>egress dev - 1 cluster<br>ingress prod - 2 clusters".
Proof. vm_compute. reflexivity. Qed.

(** Rows are ordered by status: done, in progress, the others. *)
Example rows_by_status :
  Entry.epic_key <$>
    epic_entries_sorted
      (fetch_sprint_data [story_T2; task_S1; story_T9] fetch_nothing)
  = ["E-9"; "E-1"; "S-1"].
Proof. vm_compute. reflexivity. Qed.

(** Two pages fetched without a failure. *)
Example search_two_pages :
  search_issues 2
    (fun start_at =>
       if (start_at =? 0)%Z then Page (Some [PStr "T-1"]) (Some 2%Z)
       else Page (Some [PStr "T-2"]) (Some 2%Z))
  = Some (Ok [PStr "T-1"; PStr "T-2"]).
Proof. reflexivity. Qed.

End WorkedExamples.

(** ** The table of the report: order and content of the rows *)

Module TableProps.
Import JiraClient SprintReportGenerator Examples.

(** The order of the table: the priority of the status. *)
Local Abbreviation by_priority :=
  (fun a b : Entry.t => get_sort_order a <= get_sort_order b).

Local Abbreviation has_priority n :=
  (fun e : Entry.t => get_sort_order e =? n).

Lemma filter_none {A : Type} (f : A -> bool) (l : list A) :
  (forall x, x ∈ l -> f x = false) -> List.filter f l = [].
Proof.
  induction l as [|y l IH]; intros H; simpl; [done|].
  rewrite (H y) by by left. apply IH. intros x Hx. apply H. by right.
Qed.

Lemma filter_all {A : Type} (f : A -> bool) (l : list A) :
  (forall x, x ∈ l -> f x = true) -> List.filter f l = l.
Proof.
  induction l as [|y l IH]; intros H; simpl; [done|].
  rewrite (H y) by by left. f_equal. apply IH. intros x Hx. apply H. by right.
Qed.

Lemma insert_entry_perm x l : insert_entry x l ≡ₚ x :: l.
Proof.
  induction l as [|y l IH]; simpl; [done|].
  destruct (_ <? _); [done|].
  rewrite IH. apply Permutation_swap.
Qed.

Lemma fold_insert_entry_perm l acc :
  fold_left (fun acc x => insert_entry x acc) l acc ≡ₚ l ++ acc.
Proof.
  revert acc. induction l as [|x l IH]; intros acc; simpl; [done|].
  rewrite IH, insert_entry_perm. by rewrite Permutation_middle.
Qed.

Lemma insert_entry_sorted x l :
  StronglySorted by_priority l ->
  StronglySorted by_priority (insert_entry x l).
Proof.
  induction 1 as [|y l Hl IH Hy]; simpl.
  - by repeat constructor.
  - destruct (Nat.ltb_spec (get_sort_order x) (get_sort_order y)) as [Hlt|Hge].
    + constructor; [by constructor|].
      constructor; [lia|].
      eapply Forall_impl; [exact Hy|]. simpl. intros; lia.
    + constructor; [done|].
      apply Forall_forall. intros e [->|He]%ReportProps.elem_of_insert_entry; [done|].
      by eapply (proj1 (Forall_forall _ _) Hy).
Qed.

(** An entry is inserted behind the entries of its priority. *)
Lemma insert_entry_stable n x l :
  StronglySorted by_priority l ->
  List.filter (has_priority n) (insert_entry x l)
  = List.filter (has_priority n) l ++ List.filter (has_priority n) [x].
Proof.
  induction 1 as [|y l Hl IH Hy]; [done|].
  cbn [insert_entry].
  destruct (Nat.ltb_spec (get_sort_order x) (get_sort_order y)) as [Hlt|Hge].
  - cbn [List.filter].
    destruct (Nat.eqb_spec (get_sort_order x) n) as [Hx|Hx];
      [|by rewrite app_nil_r].
    assert (Hnone : List.filter (has_priority n) (y :: l) = []).
    { apply filter_none. intros e He. apply Nat.eqb_neq.
      apply elem_of_cons in He as [->|He]; [lia|].
      pose proof (proj1 (Forall_forall _ _) Hy e He). simpl in *. lia. }
    cbn [List.filter] in Hnone. by rewrite Hnone.
  - cbn [List.filter]. rewrite IH.
    by destruct (get_sort_order y =? n).
Qed.

Lemma epic_entries_sorted_inv grouped_data :
  StronglySorted by_priority (epic_entries_sorted grouped_data) /\
  forall n,
    List.filter (has_priority n) (epic_entries_sorted grouped_data)
    = List.filter (has_priority n) (epic_entries grouped_data).
Proof.
  unfold epic_entries_sorted.
  apply (fold_left_invariant (fun acc x => insert_entry x acc)
           (fun seen acc =>
              StronglySorted by_priority acc /\
              forall n, List.filter (has_priority n) acc
                        = List.filter (has_priority n) seen)).
  - split; [constructor | done].
  - intros seen acc x [Hs Hf]. split; [by apply insert_entry_sorted|].
    intros n. by rewrite insert_entry_stable, List.filter_app, Hf.
Qed.

(** X1: the table has one row for each group and one for each
    standalone issue: the sorted rows are a rearrangement of the entries, and
    section B has five lines more than there are groups and standalone
    issues. *)
Theorem table_rows_rearranged grouped_data :
  epic_entries_sorted grouped_data ≡ₚ
    (epic_entry (default ∅ (epic_details grouped_data))
       <$> epics grouped_data)
    ++ (standalone_entry <$> standalone grouped_data) /\
  length (epic_updates grouped_data)
  = 5 + length (epics grouped_data) + length (standalone grouped_data).
Proof.
  assert (Hperm : epic_entries_sorted grouped_data
                  ≡ₚ epic_entries grouped_data).
  { unfold epic_entries_sorted.
    by rewrite fold_insert_entry_perm, app_nil_r. }
  split; [exact Hperm|].
  unfold epic_updates.
  rewrite length_app, length_fmap, Hperm. unfold epic_entries.
  rewrite length_app, !length_fmap. simpl. lia.
Qed.

(** X2: the rows of the table are in the order of the priority of
    their status: a row never stands before a row of a lower priority
    number (done, in progress, the others). *)
Theorem table_rows_by_priority grouped_data i j a b :
  epic_entries_sorted grouped_data !! i = Some a ->
  epic_entries_sorted grouped_data !! j = Some b ->
  i < j ->
  get_sort_order a <= get_sort_order b.
Proof.
  destruct (epic_entries_sorted_inv grouped_data) as [Hs _].
  intros Ha Hb Hij.
  rewrite <- (take_drop (S i) (epic_entries_sorted grouped_data)) in Hs.
  eapply (StronglySorted_app_1_elem_of _ _ _ a b Hs).
  - apply elem_of_take. exists i. split; [done | lia].
  - apply (list_elem_of_lookup_2 _ (j - S i)).
    rewrite lookup_drop. by replace (S i + (j - S i)) with j by lia.
Qed.

(** X3: the sort is stable: the rows of one priority stand in the
    order of their entries, the groups in the order of the dictionary before
    the standalone issues in the order of their list. *)
Theorem table_rows_stable grouped_data n :
  List.filter (has_priority n) (epic_entries_sorted grouped_data)
  = List.filter (has_priority n)
      ((epic_entry (default ∅ (epic_details grouped_data))
          <$> epics grouped_data)
       ++ (standalone_entry <$> standalone grouped_data)).
Proof. by destruct (epic_entries_sorted_inv grouped_data) as [_ ->]. Qed.

End TableProps.

(** ** The grouping, exactly *)

Module GroupingProps.
Import JiraClient GroupingSpec Examples.

Lemma since_last_epic_snoc k l x :
  since_last_epic k (l ++ [x])
  = if registers k x then [] else since_last_epic k l ++ [x].
Proof. unfold since_last_epic. by rewrite fold_left_app. Qed.

Lemma last_epic_snoc k l x :
  last_epic k (l ++ [x]) = if registers k x then Some x else last_epic k l.
Proof.
  unfold last_epic. rewrite List.filter_app. simpl.
  destruct (registers k x); [apply last_snoc | by rewrite app_nil_r].
Qed.

Lemma elem_of_since_last_epic k l i : i ∈ since_last_epic k l -> i ∈ l.
Proof.
  induction l as [|x l IH] using rev_ind; [done|].
  rewrite since_last_epic_snoc, elem_of_app.
  destruct (registers k x); [by intros ?%elem_of_nil|].
  intros [?|?]%elem_of_app; [left; by apply IH | by right].
Qed.

Lemma elem_of_first_occurrences x l : x ∈ first_occurrences l <-> x ∈ l.
Proof.
  unfold first_occurrences.
  by rewrite elem_of_reverse, elem_of_remove_dups, elem_of_reverse.
Qed.

Lemma first_occurrences_snoc l x :
  first_occurrences (l ++ [x])
  = if decide (x ∈ first_occurrences l) then first_occurrences l
    else first_occurrences l ++ [x].
Proof.
  unfold first_occurrences at 1. rewrite reverse_app. simpl.
  destruct (decide_rel elem_of x (reverse l)) as [Hin|Hnin].
  - rewrite decide_True; [done|].
    by apply elem_of_first_occurrences, elem_of_reverse.
  - rewrite decide_False.
    + by rewrite reverse_cons.
    + by rewrite elem_of_first_occurrences, <- elem_of_reverse.
Qed.

Lemma NoDup_first_occurrences l : NoDup (first_occurrences l).
Proof.
  unfold first_occurrences. rewrite reverse_Permutation.
  apply NoDup_remove_dups.
Qed.

(** The keys after [d[k] = v]. *)
Lemma set_keys_decide {V : Type} (d : list (string * V)) k v :
  (OrderedDict.set d k v).*1
  = if decide (k ∈ d.*1) then d.*1 else d.*1 ++ [k].
Proof.
  destruct (decide (k ∈ d.*1)).
  - by apply OrderedDictProps.set_keys.
  - by rewrite OrderedDictProps.set_fresh, fmap_app.
Qed.

Lemma entry_exact_other seen k g x :
  entry_exact seen k g -> registers k x = false -> linked_to k x = false ->
  entry_exact (seen ++ [x]) k g.
Proof.
  intros (Hkey & Hst & Hch & Hname & Hne) Hreg Hlink. unfold entry_exact.
  rewrite since_last_epic_snoc, last_epic_snoc, Hreg.
  rewrite List.filter_app. simpl. rewrite Hlink, app_nil_r. done.
Qed.

Lemma keys_step (keys : list string) seen x :
  keys = first_occurrences (group_key <$> List.filter has_group seen) ->
  has_group x = true ->
  (if decide (group_key x ∈ keys) then keys else keys ++ [group_key x])
  = first_occurrences (group_key <$> List.filter has_group (seen ++ [x])).
Proof.
  intros -> Hx. rewrite List.filter_app. cbn [List.filter]. rewrite Hx.
  rewrite fmap_app.
  change (group_key <$> [x]) with [group_key x].
  by rewrite first_occurrences_snoc.
Qed.

Lemma keys_step_none (keys : list string) seen x :
  keys = first_occurrences (group_key <$> List.filter has_group seen) ->
  has_group x = false ->
  keys = first_occurrences (group_key <$> List.filter has_group (seen ++ [x])).
Proof.
  intros -> Hx. rewrite List.filter_app. cbn [List.filter].
  by rewrite Hx, app_nil_r.
Qed.

(** A key that no issue seen gives a group has no child and no epic. *)
Lemma no_group_no_link seen k :
  k ∉ first_occurrences (group_key <$> List.filter has_group seen) ->
  List.filter (linked_to k) (since_last_epic k seen) = [] /\
  last_epic k seen = None.
Proof.
  intros Hk.
  assert (Hno : forall i, i ∈ seen -> has_group i = true -> group_key i <> k).
  { intros i Hi Hg <-. apply Hk, elem_of_first_occurrences, list_elem_of_fmap.
    exists i. split; [done|]. apply list_elem_of_In, List.filter_In.
    split; [by apply list_elem_of_In | done]. }
  split.
  - apply TableProps.filter_none. intros i Hi%elem_of_since_last_epic.
    destruct (linked_to k i) eqn:Hl; [|done]. exfalso.
    unfold linked_to in Hl.
    apply andb_prop in Hl as [[Hne Ht]%andb_prop Heq%String.eqb_eq].
    apply negb_true_iff in Hne.
    apply (Hno i Hi).
    + unfold has_group. by rewrite Ht, orb_true_r.
    + unfold group_key. by rewrite Hne.
  - unfold last_epic. rewrite TableProps.filter_none; [done|].
    intros i Hi. destruct (registers k i) eqn:Hr; [|done]. exfalso.
    unfold registers in Hr. apply andb_prop in Hr as [He Heq%String.eqb_eq].
    apply (Hno i Hi).
    + unfold has_group. by rewrite He.
    + unfold group_key. by rewrite He.
Qed.

Lemma group_step_exact seen acc x :
  grouping_exact seen acc -> grouping_exact (seen ++ [x]) (group_step acc x).
Proof.
  destruct acc as [epics standalone].
  intros (Hnd & Hkeys & Hentries & Hstandalone). simpl in *.
  unfold group_step, grouping_exact.
  destruct (is_epic x) eqn:Hx; [|destruct (Str.truthy (epic_link x)) eqn:Ht];
    cbn [fst snd].
  - (* an epic *)
    assert (Hgroup : has_group x = true) by (unfold has_group; by rewrite Hx).
    assert (Hgkey : group_key x = key x) by (unfold group_key; by rewrite Hx).
    split; [by apply OrderedDictProps.NoDup_set_keys|].
    split; [rewrite set_keys_decide, <- Hgkey; by apply keys_step|].
    split.
    + intros k g Hin. destruct (decide (k = key x)) as [->|Hne].
      * apply OrderedDictProps.elem_of_set_eq in Hin as ->; [|done].
        assert (Hreg : registers (key x) x = true)
          by (unfold registers; by rewrite Hx, String.eqb_refl).
        unfold entry_exact.
        rewrite since_last_epic_snoc, last_epic_snoc, Hreg. simpl.
        by repeat split.
      * apply OrderedDictProps.elem_of_set_ne in Hin; [|done].
        apply entry_exact_other; [by apply Hentries | |].
        -- unfold registers. rewrite Hx. simpl. apply String.eqb_neq.
           congruence.
        -- unfold linked_to. by rewrite Hx.
    + assert (Hs : is_standalone x = false)
        by (unfold is_standalone; by rewrite Hx).
      rewrite List.filter_app. cbn [List.filter]. by rewrite Hs, app_nil_r.
  - (* an issue with an epic link *)
    assert (Hgroup : has_group x = true)
      by (unfold has_group; by rewrite Ht, orb_true_r).
    assert (Hgkey : group_key x = epic_link x)
      by (unfold group_key; by rewrite Hx).
    assert (Hreg : forall k, registers k x = false)
      by (intros k; unfold registers; by rewrite Hx).
    set (fresh := {| EpicGroup.epic_key := epic_link x;
                     EpicGroup.epic_name := "";
                     EpicGroup.children := [];
                     EpicGroup.status := None |}).
    set (epics1 := if negb (OrderedDict.mem epics (epic_link x))
                   then OrderedDict.set epics (epic_link x) fresh
                   else epics).
    assert (Hnd1 : NoDup epics1.*1).
    { subst epics1. destruct (negb _); [|done].
      by apply OrderedDictProps.NoDup_set_keys. }
    assert (Hkeys1 : epics1.*1
                     = if decide (epic_link x ∈ epics.*1) then epics.*1
                       else epics.*1 ++ [epic_link x]).
    { subst epics1. destruct (OrderedDict.mem epics (epic_link x)) eqn:Hm;
        simpl.
      - apply OrderedDictProps.mem_keys in Hm. by rewrite decide_True.
      - rewrite set_keys_decide. done. }
    split; [by rewrite OrderedDictProps.alter_keys|].
    split; [rewrite OrderedDictProps.alter_keys, Hkeys1, <- Hgkey;
            by apply keys_step|].
    split.
    + intros k g Hin. destruct (decide (k = epic_link x)) as [->|Hne].
      * apply OrderedDictProps.elem_of_alter_eq in Hin as (g0 & Hin0 & ->);
          [|done].
        assert (Hlink : linked_to (epic_link x) x = true)
          by (unfold linked_to; by rewrite Hx, Ht, String.eqb_refl).
        unfold entry_exact.
        rewrite since_last_epic_snoc, last_epic_snoc, Hreg.
        rewrite List.filter_app. cbn [List.filter]. rewrite Hlink. simpl.
        subst epics1.
        destruct (OrderedDict.mem epics (epic_link x)) eqn:Hm; simpl in Hin0.
        -- destruct (Hentries _ _ Hin0) as (Hk & Hs & Hch & Hname & _).
           rewrite <- Hch. repeat split; try done.
           intros _. by destruct (EpicGroup.children g0).
        -- apply OrderedDictProps.elem_of_set_eq in Hin0 as ->; [|done].
           assert (Hnot : epic_link x ∉ epics.*1).
           { intros Hk%OrderedDictProps.mem_keys. congruence. }
           rewrite Hkeys in Hnot.
           destruct (no_group_no_link _ _ Hnot) as [-> ->].
           simpl. by repeat split.
      * apply OrderedDictProps.elem_of_alter_ne in Hin; [|done].
        assert (Hin0 : (k, g) ∈ epics).
        { subst epics1. destruct (negb _); [|done].
          by apply OrderedDictProps.elem_of_set_ne in Hin. }
        apply entry_exact_other; [by apply Hentries | done |].
        unfold linked_to. rewrite Hx, Ht. simpl. apply String.eqb_neq.
        congruence.
    + assert (Hs : is_standalone x = false)
        by (unfold is_standalone; by rewrite Hx, Ht).
      rewrite List.filter_app. cbn [List.filter]. by rewrite Hs, app_nil_r.
  - (* an issue without an epic link *)
    assert (Hgroup : has_group x = false)
      by (unfold has_group; by rewrite Hx, Ht).
    split; [done|]. split; [by apply keys_step_none|].
    split.
    + intros k g Hin. apply entry_exact_other; [by apply Hentries | |].
      * unfold registers. by rewrite Hx.
      * unfold linked_to. by rewrite Hx, Ht.
    + assert (Hs : is_standalone x = true)
        by (unfold is_standalone; by rewrite Hx, Ht).
      rewrite List.filter_app. cbn [List.filter]. by rewrite Hs, Hstandalone.
Qed.

Lemma group_issues_by_parent_exact issues :
  grouping_exact issues
    (epics (group_issues_by_parent issues),
     standalone (group_issues_by_parent issues)).
Proof.
  destruct (JiraClientProps.group_issues_by_parent_unfold issues) as [-> ->].
  rewrite <- surjective_pairing.
  apply (fold_left_invariant group_step grouping_exact).
  - split; [apply NoDup_nil_2|]. split; [done|].
    split; [by intros k g ?%elem_of_nil | done].
  - intros. by apply group_step_exact.
Qed.

Lemma since_last_epic_none k l :
  (forall i, i ∈ l -> registers k i = false) -> since_last_epic k l = l.
Proof.
  induction l as [|x l IH] using rev_ind; intros H; [done|].
  rewrite since_last_epic_snoc, H by (apply elem_of_app; right; by left).
  rewrite IH; [done|]. intros i Hi. apply H, elem_of_app. by left.
Qed.

Lemma since_last_epic_after k pre e post :
  registers k e = true -> (forall i, i ∈ post -> registers k i = false) ->
  since_last_epic k (pre ++ e :: post) = post.
Proof.
  intros He. induction post as [|x post IH] using rev_ind; intros H.
  - by rewrite since_last_epic_snoc, He.
  - change (pre ++ e :: post ++ [x]) with (pre ++ (e :: post) ++ [x]).
    rewrite app_assoc, since_last_epic_snoc.
    rewrite H by (apply elem_of_app; right; by left).
    rewrite IH; [done|]. intros i Hi. apply H, elem_of_app. by left.
Qed.

Lemma last_epic_none k l :
  (forall i, i ∈ l -> registers k i = false) -> last_epic k l = None.
Proof.
  intros H. unfold last_epic. by rewrite TableProps.filter_none.
Qed.

Lemma last_epic_after k pre e post :
  registers k e = true -> (forall i, i ∈ post -> registers k i = false) ->
  last_epic k (pre ++ e :: post) = Some e.
Proof.
  intros He H. unfold last_epic.
  rewrite List.filter_app. cbn [List.filter]. rewrite He.
  rewrite (TableProps.filter_none _ post H).
  apply last_snoc.
Qed.

Lemma not_registers k (l : list Issue) :
  (forall i, i ∈ l -> is_epic i = true -> key i <> k) ->
  forall i, i ∈ l -> registers k i = false.
Proof.
  intros H i Hi. unfold registers.
  destruct (is_epic i) eqn:He; [|done]. simpl.
  apply String.eqb_neq. by apply H.
Qed.

(** X4: the standalone list is made of the issues that are no epic
    and have no epic link, all of them and in the order of the input. *)
Theorem standalone_exact issues :
  standalone (group_issues_by_parent issues)
  = List.filter
      (fun i => negb (is_epic i) && negb (Str.truthy (epic_link i))) issues.
Proof. by destruct (group_issues_by_parent_exact issues) as (_ & _ & _ & ?). Qed.

(** X5: the dictionary of the groups has one entry for each key that
    is the key of an epic or the non-empty epic link of another issue, and
    no other entry; an entry holds its own key and no status. *)
Theorem groups_exact issues :
  let groups := epics (group_issues_by_parent issues) in
  NoDup groups.*1 /\
  (forall k, k ∈ groups.*1 <->
     exists i, i ∈ issues /\
       ((is_epic i = true /\ key i = k) \/
        (is_epic i = false /\ epic_link i = k /\ k <> ""))) /\
  (forall k g, (k, g) ∈ groups ->
     EpicGroup.epic_key g = k /\ EpicGroup.status g = None).
Proof.
  destruct (group_issues_by_parent_exact issues)
    as (Hnd & Hkeys & Hentries & _). simpl in *.
  split; [done|]. split.
  - intros k. rewrite Hkeys, elem_of_first_occurrences, list_elem_of_fmap.
    split.
    + intros (i & -> & Hi%list_elem_of_In%List.filter_In).
      destruct Hi as [Hi%list_elem_of_In Hg].
      exists i. split; [done|]. unfold has_group, group_key in *.
      destruct (is_epic i); [by left|]. right.
      split; [done|]. split; [done|]. simpl in Hg.
      unfold Str.truthy in Hg. apply negb_true_iff in Hg.
      by apply String.eqb_neq.
    + intros (i & Hi & Hcase). exists i.
      assert (Hg : has_group i = true /\ k = group_key i).
      { unfold has_group, group_key.
        destruct Hcase as [[-> <-]|(-> & <- & Hne)]; [done|].
        split; [|done]. simpl. unfold Str.truthy.
        by apply negb_true_iff, String.eqb_neq. }
      destruct Hg as [Hg ->]. split; [done|].
      apply list_elem_of_In, List.filter_In.
      split; [by apply list_elem_of_In | done].
  - intros k g Hin. by destruct (Hentries k g Hin) as (? & ? & _).
Qed.

(** X6: the groups stand in the dictionary in the order in which
    their keys are first mentioned by the input, as the key of an epic or as
    the epic link of another issue. *)
Theorem groups_in_order_of_first_mention issues :
  (epics (group_issues_by_parent issues)).*1
  = first_occurrences
      ((fun i => if is_epic i then key i else epic_link i)
         <$> List.filter
               (fun i => is_epic i || Str.truthy (epic_link i)) issues).
Proof. by destruct (group_issues_by_parent_exact issues) as (_ & ? & _). Qed.

(** X7: the group of a key that is the key of no epic of the input
    has for children all the issues that are no epic and carry the key as
    epic link, in the order of the input, and there is at least one. *)
Theorem children_of_unregistered_key issues k g :
  (k, g) ∈ epics (group_issues_by_parent issues) ->
  (forall i, i ∈ issues -> is_epic i = true -> key i <> k) ->
  EpicGroup.children g = List.filter (linked_to k) issues /\
  EpicGroup.children g <> [].
Proof.
  intros Hin Hno0. pose proof (not_registers _ _ Hno0) as Hno.
  destruct (group_issues_by_parent_exact issues) as (_ & _ & Hentries & _).
  destruct (Hentries k g Hin) as (_ & _ & Hch & _ & Hne). simpl in *.
  rewrite since_last_epic_none in Hch by done.
  split; [done|]. by apply Hne, last_epic_none.
Qed.

Lemma children_of_unregistered_key_witness :
  ("E-9", group_E9) ∈ epics (group_issues_by_parent sprint_issues) /\
  (forall i, i ∈ sprint_issues -> is_epic i = true -> key i <> "E-9") /\
  EpicGroup.children group_E9 = List.filter (linked_to "E-9") sprint_issues /\
  EpicGroup.children group_E9 <> [].
Proof.
  assert (Hin : ("E-9", group_E9)
                ∈ epics (group_issues_by_parent sprint_issues))
    by (vm_compute; repeat constructor).
  assert (Hno : forall i, i ∈ sprint_issues -> is_epic i = true ->
                          key i <> "E-9").
  { intros i Hi. unfold sprint_issues in Hi.
    repeat (apply elem_of_cons in Hi as [->|Hi]); try discriminate.
    by apply elem_of_nil in Hi. }
  split; [exact Hin|]. split; [exact Hno|].
  exact (children_of_unregistered_key sprint_issues "E-9" group_E9 Hin Hno).
Defined.

(** X8: the group of an epic of the input has the name of the last
    epic with its key (the epic name, or the summary when that is empty),
    and for children the issues linked to the key that come after that epic:
    the issues linked to the key that come before it are not in the
    result. *)
Theorem group_of_registered_epic pre e post g :
  is_epic e = true ->
  (forall i, i ∈ post -> is_epic i = true -> key i <> key e) ->
  (key e, g) ∈ epics (group_issues_by_parent (pre ++ e :: post)) ->
  EpicGroup.epic_name g = Str.or (epic_name e) (summary e) /\
  EpicGroup.children g = List.filter (linked_to (key e)) post.
Proof.
  intros He Hno0 Hin. pose proof (not_registers _ _ Hno0) as Hno.
  assert (Hreg : registers (key e) e = true)
    by (unfold registers; by rewrite He, String.eqb_refl).
  destruct (group_issues_by_parent_exact (pre ++ e :: post))
    as (_ & _ & Hentries & _).
  destruct (Hentries _ g Hin) as (_ & _ & Hch & Hname & _). simpl in *.
  rewrite since_last_epic_after in Hch by done.
  by rewrite last_epic_after in Hname by done.
Qed.

Lemma group_of_registered_epic_witness :
  let g := {| EpicGroup.epic_key := "E-1"; EpicGroup.epic_name := "Platform";
              EpicGroup.children := [story_T2]; EpicGroup.status := None |} in
  is_epic epic_E1 = true /\
  (forall i, i ∈ [story_T2] -> is_epic i = true -> key i <> key epic_E1) /\
  (key epic_E1, g)
    ∈ epics (group_issues_by_parent ([story_T1] ++ epic_E1 :: [story_T2])) /\
  EpicGroup.epic_name g = Str.or (epic_name epic_E1) (summary epic_E1) /\
  EpicGroup.children g = List.filter (linked_to (key epic_E1)) [story_T2].
Proof.
  assert (Hno : forall i, i ∈ [story_T2] -> is_epic i = true ->
                          key i <> key epic_E1).
  { intros i Hi. repeat (apply elem_of_cons in Hi as [->|Hi]);
      try discriminate. by apply elem_of_nil in Hi. }
  assert (Hin : (key epic_E1,
                 {| EpicGroup.epic_key := "E-1";
                    EpicGroup.epic_name := "Platform";
                    EpicGroup.children := [story_T2];
                    EpicGroup.status := None |})
      ∈ epics (group_issues_by_parent ([story_T1] ++ epic_E1 :: [story_T2])))
    by (vm_compute; repeat constructor).
  split; [reflexivity|]. split; [exact Hno|]. split; [exact Hin|].
  exact (group_of_registered_epic [story_T1] epic_E1 [story_T2] _
           eq_refl Hno Hin).
Defined.

End GroupingProps.

(** ** The data of the report: what [fetch_sprint_data] adds to the grouping *)

Module FetchProps.
Import JiraClient SprintReportGenerator GroupingSpec Examples.

Lemma elem_of_epics_in_jql parsed_issues k :
  k ∈ epics_in_jql parsed_issues <->
  exists i, i ∈ parsed_issues /\ is_epic i = true /\ key i = k.
Proof.
  revert k. unfold epics_in_jql.
  apply (fold_left_invariant
           (fun (acc : gset string) issue =>
              if is_epic issue then acc ∪ {[key issue]} else acc)
           (fun seen acc => forall k, k ∈ acc <->
              exists i, i ∈ seen /\ is_epic i = true /\ key i = k)).
  - intros k. split; [by intros ?%not_elem_of_empty
                     | by intros (i & ?%elem_of_nil & _)].
  - intros seen acc x IH k.
    assert (Hsplit : (exists i, i ∈ seen ++ [x] /\ is_epic i = true /\ key i = k)
                     <-> (exists i, i ∈ seen /\ is_epic i = true /\ key i = k)
                         \/ (is_epic x = true /\ key x = k)).
    { split.
      - intros (i & [Hi| ->%list_elem_of_singleton]%elem_of_app & ? & ?);
          [left; by exists i | by right].
      - intros [(i & ? & ? & ?)|[? ?]]; [exists i | exists x];
          (split; [apply elem_of_app; auto; right; by left | done]). }
    rewrite Hsplit, <- IH.
    destruct (is_epic x).
    + rewrite elem_of_union, elem_of_singleton.
      split; (intros [?|?]; [by left | right]); [by subst | by destruct H].
    + split; [by left | by intros [?|[? _]]].
Qed.

Lemma elem_of_epic_links parsed_issues k :
  k ∈ epic_links_from_children parsed_issues <->
  exists i, i ∈ parsed_issues /\ epic_link i = k /\ k <> "".
Proof.
  revert k. unfold epic_links_from_children.
  apply (fold_left_invariant
           (fun (acc : gset string) issue =>
              if Str.truthy (epic_link issue) then acc ∪ {[epic_link issue]}
              else acc)
           (fun seen acc => forall k, k ∈ acc <->
              exists i, i ∈ seen /\ epic_link i = k /\ k <> "")).
  - intros k. split; [by intros ?%not_elem_of_empty
                     | by intros (i & ?%elem_of_nil & _)].
  - intros seen acc x IH k.
    assert (Hsplit : (exists i, i ∈ seen ++ [x] /\ epic_link i = k /\ k <> "")
                     <-> (exists i, i ∈ seen /\ epic_link i = k /\ k <> "")
                         \/ (epic_link x = k /\ k <> "")).
    { split.
      - intros (i & [Hi| ->%list_elem_of_singleton]%elem_of_app & ? & ?);
          [left; by exists i | by right].
      - intros [(i & ? & ? & ?)|[? ?]]; [exists i | exists x];
          (split; [apply elem_of_app; auto; right; by left | done]). }
    rewrite Hsplit, <- IH. unfold Str.truthy.
    destruct (String.eqb_spec (epic_link x) "") as [He|Hne]; simpl.
    + split; [by left | intros [?|[Hk ?]]; [done | congruence]].
    + rewrite elem_of_union, elem_of_singleton.
      split; [intros [?| ->]; [by left | by right]
             | intros [?|[Hk _]]; [by left | by right]].
Qed.

(** X9: the supplementary query asks for exactly the keys that are
    the non-empty epic link of an issue of the query (an epic or not) and
    the key of no epic of the query. *)
Theorem epic_keys_to_fetch_exact parsed_issues k :
  k ∈ epic_keys_to_fetch parsed_issues <->
  (exists i, i ∈ parsed_issues /\ epic_link i = k /\ k <> "") /\
  ~ (exists i, i ∈ parsed_issues /\ is_epic i = true /\ key i = k).
Proof.
  unfold epic_keys_to_fetch.
  by rewrite elem_of_difference, elem_of_epic_links, elem_of_epics_in_jql.
Qed.

Lemma key_is_valid_elem parsed_issues c :
  c ∈ parsed_issues -> key_is_valid parsed_issues c = true.
Proof.
  intros Hc. unfold key_is_valid, valid_issue_keys.
  apply bool_decide_eq_true, elem_of_list_to_set, list_elem_of_fmap.
  by exists c.
Qed.

(** X10: the filtering of [fetch_sprint_data] removes nothing from
    the grouping of the issues of the query: the groups, their children and
    the standalone issues of the result are those of
    [group_issues_by_parent]. *)
Theorem fetch_sprint_data_keeps_grouping parsed_issues fetch_epics :
  epics (fetch_sprint_data parsed_issues fetch_epics)
  = epics (group_issues_by_parent parsed_issues) /\
  standalone (fetch_sprint_data parsed_issues fetch_epics)
  = standalone (group_issues_by_parent parsed_issues).
Proof.
  destruct (GroupingProps.group_issues_by_parent_exact parsed_issues)
    as (Hnd & _ & Hentries & Hstandalone). simpl in *.
  unfold fetch_sprint_data, reconcile. simpl. split.
  - rewrite ReportProps.fold_filter_step_stable; [done | done |].
    intros k g Hin.
    destruct (Hentries k g Hin) as (_ & _ & Hch & _ & Hne). split.
    + apply TableProps.filter_all. intros c Hc. apply key_is_valid_elem.
      rewrite Hch in Hc.
      apply list_elem_of_In, List.filter_In in Hc as [Hc%list_elem_of_In _].
      by eapply GroupingProps.elem_of_since_last_epic.
    + destruct (last_epic k parsed_issues) as [e|] eqn:He; [|right; auto].
      left. apply elem_of_epics_in_jql. exists e.
      apply last_Some_elem_of, list_elem_of_In, List.filter_In in He
        as [He%list_elem_of_In Hreg].
      apply andb_prop in Hreg as [? ?%String.eqb_eq]. done.
  - apply TableProps.filter_all. intros c Hc. apply key_is_valid_elem.
    rewrite Hstandalone in Hc.
    by apply list_elem_of_In, List.filter_In in Hc as [Hc%list_elem_of_In _].
Qed.

(** Records put into a map under their own key, one after another. *)
Lemma fold_insert_lookup (f : Issue -> bool) (m0 : gmap string Issue)
    (l : list Issue) :
  let m :=
    fold_left (fun acc i => if f i then <[key i := i]> acc else acc) l m0 in
  (forall k r, m !! k = Some r ->
     m0 !! k = Some r \/ (key r = k /\ f r = true /\ r ∈ l)) /\
  (forall k, is_Some (m0 !! k) -> is_Some (m !! k)) /\
  (forall i, i ∈ l -> f i = true -> is_Some (m !! key i)).
Proof.
  apply (fold_left_invariant
           (fun acc i => if f i then <[key i := i]> acc else acc)
           (fun seen m =>
              (forall k r, m !! k = Some r ->
                 m0 !! k = Some r \/ (key r = k /\ f r = true /\ r ∈ seen)) /\
              (forall k, is_Some (m0 !! k) -> is_Some (m !! k)) /\
              (forall i, i ∈ seen -> f i = true -> is_Some (m !! key i)))).
  - split; [by left|]. split; [done|]. by intros i ?%elem_of_nil.
  - intros seen m x (Hfrom & Hkeep & Hall).
    destruct (f x) eqn:Hx.
    + split; [|split].
      * intros k r. rewrite lookup_insert. case_decide as Hk.
        -- intros [= <-]. right. split; [done|]. split; [done|].
           apply elem_of_app. right. by left.
        -- intros [?|(? & ? & ?)]%Hfrom; [by left|]. right.
           split; [done|]. split; [done|]. apply elem_of_app. by left.
      * intros k Hk. rewrite lookup_insert. case_decide; [by eexists|].
        by apply Hkeep.
      * intros i [Hi| ->%list_elem_of_singleton]%elem_of_app Hf.
        -- rewrite lookup_insert. case_decide; [by eexists|]. by apply Hall.
        -- rewrite lookup_insert_eq. by eexists.
    + split; [|split].
      * intros k r [?|(? & ? & ?)]%Hfrom; [by left|]. right.
        split; [done|]. split; [done|]. apply elem_of_app. by left.
      * done.
      * intros i [Hi| ->%list_elem_of_singleton]%elem_of_app Hf;
          [by apply Hall | congruence].
Qed.

(** X11: every record of [epic_details] is stored under its own key
    and is an epic of the query or a record that the supplementary query
    returned; every epic of the query has a record under its key, and so has
    every record returned by the supplementary query, which is made only
    when there is a key to fetch. *)
Theorem epic_details_exact parsed_issues fetch_epics :
  let details := compute_epic_details parsed_issues fetch_epics in
  let to_fetch := epic_keys_to_fetch parsed_issues in
  epic_details (fetch_sprint_data parsed_issues fetch_epics) = Some details /\
  (forall k r, details !! k = Some r ->
     key r = k /\
     ((is_epic r = true /\ r ∈ parsed_issues) \/
      (to_fetch <> ∅ /\ r ∈ fetch_epics to_fetch))) /\
  (forall e, e ∈ parsed_issues -> is_epic e = true ->
     is_Some (details !! key e)) /\
  (to_fetch <> ∅ ->
   forall r, r ∈ fetch_epics to_fetch -> is_Some (details !! key r)).
Proof.
  intros details to_fetch. split; [done|].
  subst details. unfold compute_epic_details. fold to_fetch.
  destruct (fold_insert_lookup is_epic ∅ parsed_issues)
    as (Hfrom & _ & Hall).
  set (in_query := fold_left _ parsed_issues ∅) in *.
  case_bool_decide as Hfetch.
  - destruct (fold_insert_lookup (fun _ => true) in_query
                (fetch_epics to_fetch)) as (Hfrom' & Hkeep' & Hall').
    cbv beta iota in Hfrom', Hkeep', Hall'.
    split; [|split].
    + intros k r [Hr|(? & _ & ?)]%Hfrom'.
      * apply Hfrom in Hr as [Hr|(? & ? & ?)]; [by rewrite lookup_empty in Hr|].
        split; [done|]. by left.
      * split; [done|]. by right.
    + intros e He Hepic. by apply Hkeep', Hall.
    + intros _ r Hr. by apply Hall'.
  - split; [|split].
    + intros k r [Hr|(? & ? & ?)]%Hfrom; [by rewrite lookup_empty in Hr|].
      split; [done|]. by left.
    + done.
    + done.
Qed.

End FetchProps.

(** ** The search: termination and what a result tells *)

Module SearchProps.
Import JiraClient Examples.

Lemma search_loop_raises fuel http_get start_at all_issues e :
  search_loop fuel http_get start_at all_issues = Some (Raise e) ->
  e = RequestException.
Proof.
  revert start_at all_issues.
  induction fuel as [|fuel IH]; intros start_at all_issues; simpl; [done|].
  destruct (http_get start_at) as [|oissues ototal]; [by intros [= <-]|].
  destruct (_ || _); [done | apply IH].
Qed.





(** X14: when the first answer reports no total, or a total that its
    own issues reach, the search returns the issues of that answer and asks
    for no other page. *)
Theorem search_issues_single_page fuel http_get oissues ototal :
  http_get 0%Z = Page oissues ototal ->
  (default 0 ototal <= Z.of_nat (length (default [] oissues)))%Z ->
  search_issues (S fuel) http_get = Some (Ok (default [] oissues)).
Proof.
  intros Hget Htotal. unfold search_issues. simpl. rewrite Hget.
  replace (_ >=? _)%Z with true by (symmetry; apply Z.geb_le; lia).
  done.
Qed.

Lemma search_issues_single_page_witness :
  let http_get := fun _ : Z => Page (Some [PStr "T-1"; PStr "T-2"]) None in
  http_get 0%Z = Page (Some [PStr "T-1"; PStr "T-2"]) None /\
  (default 0 None <= Z.of_nat (length (default [] (Some [PStr "T-1"; PStr "T-2"]))))%Z /\
  search_issues 1 http_get = Some (Ok [PStr "T-1"; PStr "T-2"]).
Proof.
  split; [reflexivity|]. split; [simpl; lia|].
  apply (search_issues_single_page 0
           (fun _ : Z => Page (Some [PStr "T-1"; PStr "T-2"]) None)
           (Some [PStr "T-1"; PStr "T-2"]) None); [reflexivity | simpl; lia].
Defined.

Lemma search_loop_last_page fuel http_get all_issues l :
  search_loop fuel http_get (Z.of_nat (length all_issues)) all_issues
  = Some (Ok l) ->
  exists oissues ototal,
    http_get (Z.of_nat (length l)
              - Z.of_nat (length (default [] oissues)))%Z
    = Page oissues ototal /\
    default [] oissues `suffix_of` l /\
    ((Z.of_nat (length l) >= default 0 ototal)%Z \/ default [] oissues = []).
Proof.
  revert all_issues.
  induction fuel as [|fuel IH]; intros all_issues; simpl; [done|].
  destruct (http_get (Z.of_nat (length all_issues)))
    as [|oissues ototal] eqn:Hget; [done|].
  destruct (_ || _) eqn:Hstop.
  - intros [= <-]. exists oissues, ototal. rewrite length_app.
    split; [by replace (_ - _)%Z with (Z.of_nat (length all_issues)) by lia|].
    split; [by eexists|].
    apply orb_prop in Hstop as [Hge%Z.geb_le|Hz%Z.eqb_eq]; [left; lia|].
    right. apply length_zero_iff_nil. lia.
  - intros Hloop. apply (IH (all_issues ++ default [] oissues)).
    by rewrite length_app, Nat2Z.inj_add.
Qed.

(** X15: a result that is not empty ends with the issues of the last
    page fetched, which was asked for at the offset of the issues received
    before it; and the result is as long as the total that came with that
    page, or that page was empty. *)
Theorem search_issues_result_complete fuel http_get l :
  search_issues fuel http_get = Some (Ok l) -> l <> [] ->
  exists oissues ototal,
    http_get (Z.of_nat (length l)
              - Z.of_nat (length (default [] oissues)))%Z
    = Page oissues ototal /\
    default [] oissues `suffix_of` l /\
    ((Z.of_nat (length l) >= default 0 ototal)%Z \/ default [] oissues = []).
Proof.
  unfold search_issues.
  destruct (search_loop fuel http_get 0 []) as [[l'|e]|] eqn:Hloop; [| |done].
  - intros [= <-] _. by apply (search_loop_last_page fuel http_get []).
  - rewrite (search_loop_raises _ _ _ _ _ Hloop). by intros [= <-].
Qed.

Lemma search_issues_result_complete_witness :
  let http_get := fun start_at : Z =>
    if (start_at =? 0)%Z then Page (Some [PStr "T-1"]) (Some 2%Z)
    else Page (Some [PStr "T-2"]) (Some 2%Z) in
  search_issues 2 http_get = Some (Ok [PStr "T-1"; PStr "T-2"]) /\
  exists oissues ototal,
    http_get (Z.of_nat (length [PStr "T-1"; PStr "T-2"])
              - Z.of_nat (length (default [] oissues)))%Z
    = Page oissues ototal /\
    default [] oissues `suffix_of` [PStr "T-1"; PStr "T-2"] /\
    ((Z.of_nat (length [PStr "T-1"; PStr "T-2"]) >= default 0 ototal)%Z
     \/ default [] oissues = []).
Proof.
  split; [reflexivity|].
  apply (search_issues_result_complete 2
           (fun start_at : Z =>
              if (start_at =? 0)%Z then Page (Some [PStr "T-1"]) (Some 2%Z)
              else Page (Some [PStr "T-2"]) (Some 2%Z)));
    [reflexivity | discriminate].
Defined.

End SearchProps.

(** ** Normalization: where the values of the result come from *)

Module ParseProps.
Import JiraClient Shape Examples.

Lemma path_last d k dflt :
  default dflt (path (PDict d) [k]) = dict_get d k dflt.
Proof. unfold dict_get. simpl. by destruct (dict_lookup d k). Qed.

Lemma path_falsy d k ks :
  truthy (dict_get d k empty_dict) = false -> ks <> [] ->
  path (PDict d) (k :: ks) = None.
Proof.
  unfold dict_get. simpl. intros Hf Hks.
  destruct (dict_lookup d k) as [v|]; [|done].
  destruct ks as [|k' ks]; [done|].
  destruct v as [| | | | |[|??]]; done.
Qed.

Lemma path_falsy_none d k ks :
  truthy (dict_get d k PNone) = false -> ks <> [] ->
  path (PDict d) (k :: ks) = None.
Proof.
  unfold dict_get. simpl. intros Hf Hks.
  destruct (dict_lookup d k) as [v|]; [|done].
  destruct ks as [|k' ks]; [done|].
  destruct v as [| | | | |[|??]]; done.
Qed.

Lemma dict_get_truthy d k v :
  dict_get d k PNone = v -> truthy v = true -> dict_get d k empty_dict = v.
Proof.
  unfold dict_get. destruct (dict_lookup d k); [done|]. by intros <-.
Qed.

(** Rewrites the paths of the goal along the objects that are known. *)
Ltac follow_paths :=
  repeat match goal with
         | E : dict_get ?d ?k empty_dict = PDict ?o
           |- context [path (PDict ?d) (?k :: ?ks)] =>
             rewrite (JiraClientProps.path_under k d o ks E) by done
         | F : truthy (dict_get ?d ?k empty_dict) = false
           |- context [path (PDict ?d) (?k :: ?ks)] =>
             rewrite (path_falsy d k ks F) by done
         | F : truthy (dict_get ?d ?k PNone) = false
           |- context [path (PDict ?d) (?k :: ?ks)] =>
             rewrite (path_falsy_none d k ks F) by done
         end;
  rewrite ?path_last.

Lemma mbind_ok {A B : Type} (m : result A) (f : A -> result B) (b : B) :
  m ≫= f = Ok b -> exists a, m = Ok a /\ f a = Ok b.
Proof. destruct m as [a|e]; [by exists a | done]. Qed.

Lemma get_ok v k dflt x :
  get v k dflt = Ok x -> exists o, v = PDict o /\ x = dict_get o k dflt.
Proof. destruct v; try done. intros [= <-]. by eexists. Qed.

Lemma sprint_name_path f v :
  (if truthy (dict_get f "customfield_10020" (PList []))
   then match dict_get f "customfield_10020" (PList []) with
        | PList (first :: _) => get first "name" empty_str
        | _ => Ok empty_str
        end
   else Ok empty_str) = Ok v ->
  v = match path (PDict f) ["customfield_10020"] with
      | Some (PList (first :: _)) => default (PStr "") (path first ["name"])
      | _ => PStr ""
      end.
Proof.
  unfold dict_get. simpl.
  destruct (dict_lookup f "customfield_10020") as [sf|]; [|by intros [= <-]].
  destruct sf as [| | | |[|first l]|]; try (destruct (truthy _); by intros [= <-]).
  simpl. intros (o & -> & ->)%get_ok. simpl. unfold dict_get.
  by destruct (dict_lookup o "name").
Qed.

(** What the values of the result are, as paths into the raw record. *)
Lemma parse_issue_paths raw p :
  parse_issue raw = Ok p ->
  Forall (fun '(field, source) =>
            field p = default (PStr "") (path raw source)) string_fields /\
  epic_link p
  = (let parent_key :=
       default (PStr "") (path raw ["fields"; "parent"; "key"]) in
     if eq_str (default PNone
                  (path raw ["fields"; "parent"; "fields"; "issuetype";
                             "name"])) "Epic"
        && truthy parent_key
     then parent_key
     else default (PStr "") (path raw ["fields"; "customfield_10014"])) /\
  sprint p
  = match path raw ["fields"; "customfield_10020"] with
    | Some (PList (first :: _)) => default (PStr "") (path first ["name"])
    | _ => PStr ""
    end.
Proof.
  intros H. unfold parse_issue in H.
  destruct raw as [| | | | |d]; try discriminate H.
  cbn [get mbind result_bind bind] in H.
  destruct (dict_get d "fields" empty_dict) as [| | | | |f] eqn:Ef;
    try discriminate H.
  cbn [get mbind result_bind bind] in H.
  apply mbind_ok in H as (is_epic_parent & Hepic & H).
  apply mbind_ok in H as (epic_link0 & Hlink0 & H).
  apply mbind_ok in H as (epic_link1 & Hlink1 & H).
  apply mbind_ok in H as (sprint_name & Hsprint%sprint_name_path & H).
  apply mbind_ok in H as (v_status & (st & Est & ->)%get_ok & H).
  rewrite Est in H. cbn [get mbind result_bind bind] in H.
  apply mbind_ok in H as (v_category & (sc & Esc & ->)%get_ok & H).
  apply mbind_ok in H as (v_type & (it & Eit & ->)%get_ok & H).
  apply mbind_ok in H as (v_parent_key & Hpkey & H).
  apply mbind_ok in H as (v_parent_summary & Hpsum & H).
  apply mbind_ok in H as (v_assignee & Hassignee & H).
  injection H as <-.
  unfold string_fields. cbn [epic_link sprint].
  assert (Hassignee' :
    v_assignee
    = default (PStr "") (path (PDict f) ["assignee"; "displayName"])).
  { destruct (truthy (dict_get f "assignee" PNone)) eqn:Hta.
    - apply get_ok in Hassignee as (a & Ea & ->). by follow_paths.
    - injection Hassignee as <-. by follow_paths. }
  clear Hassignee.
  destruct (truthy (dict_get f "parent" empty_dict)) eqn:Htp.
  - apply get_ok in Hpkey as (pd & Ep & ->). rewrite Ep in Hepic, Hpsum, Hlink0.
    cbn [get mbind result_bind bind] in Hepic, Hpsum, Hlink0.
    apply get_ok in Hpsum as (pf & Epf & ->).
    rewrite Epf in Hepic. cbn [get mbind result_bind bind] in Hepic.
    apply mbind_ok in Hepic as (pn & (pt & Ept & ->)%get_ok & [= <-]).
    split; [|split].
    + repeat (apply Forall_cons_2;
              [cbn beta iota; cbn -[path dict_get]; by follow_paths|]).
      apply Forall_nil_2.
    + follow_paths. cbv zeta. unfold empty_str in *.
      destruct (eq_str (dict_get pt "name" PNone) "Epic");
        injection Hlink0 as <-; simpl in Hlink1 |- *.
      * destruct (truthy (dict_get pd "key" (PStr "")));
          by injection Hlink1 as <-.
      * by injection Hlink1 as <-.
    + by follow_paths.
  - injection Hpkey as <-. injection Hpsum as <-. injection Hepic as <-.
    injection Hlink0 as <-. simpl in Hlink1. injection Hlink1 as <-.
    split; [|split].
    + repeat (apply Forall_cons_2;
              [cbn beta iota; cbn -[path dict_get]; by follow_paths|]).
      apply Forall_nil_2.
    + by follow_paths.
    + by follow_paths.
Qed.


(** X16: when [parse_issue] returns, each of the twelve values that
    is read from one place of the raw record is the value found at that
    place, unchanged and of whatever type it is, and the empty string when
    the place is missing (a [null] parent or assignee counting as
    missing). *)
Theorem parse_issue_copies_values raw p :
  parse_issue raw = Ok p ->
  Forall (fun '(field, source) =>
            field p = default (PStr "") (path raw source)) string_fields.
Proof. intros H. by destruct (parse_issue_paths raw p H) as (? & _). Qed.

Lemma parse_issue_copies_values_witness :
  exists p,
    parse_issue story = Ok p /\
    Forall (fun '(field, source) =>
              field p = default (PStr "") (path story source)) string_fields.
Proof.
  eexists. split; [vm_compute; reflexivity|].
  apply (parse_issue_copies_values story). vm_compute. reflexivity.
Defined.

(** X17: when [parse_issue] returns, the epic link is the key of the
    parent if the type of the parent is named "Epic" and that key is a true
    value; in every other case it is the value of the link field
    [customfield_10014], the empty string when that is missing. *)
Theorem parse_issue_epic_link raw p :
  parse_issue raw = Ok p ->
  let parent_key := default (PStr "") (path raw ["fields"; "parent"; "key"]) in
  let parent_type :=
    default PNone
      (path raw ["fields"; "parent"; "fields"; "issuetype"; "name"]) in
  epic_link p
  = if eq_str parent_type "Epic" && truthy parent_key then parent_key
    else default (PStr "") (path raw ["fields"; "customfield_10014"]).
Proof. intros H. by destruct (parse_issue_paths raw p H) as (_ & ? & _). Qed.

Lemma parse_issue_epic_link_witness :
  exists p,
    parse_issue story = Ok p /\
    epic_link p = PStr "E-1" /\
    epic_link p
    = if eq_str (default PNone
                   (path story ["fields"; "parent"; "fields"; "issuetype";
                                "name"])) "Epic"
         && truthy (default (PStr "") (path story ["fields"; "parent"; "key"]))
      then default (PStr "") (path story ["fields"; "parent"; "key"])
      else default (PStr "") (path story ["fields"; "customfield_10014"]).
Proof.
  eexists. split; [vm_compute; reflexivity|]. split; [reflexivity|].
  apply (parse_issue_epic_link story). vm_compute. reflexivity.
Defined.

(** X18: when [parse_issue] returns, the sprint is the name of the
    first element of the sprint field when that field is a list with an
    element (the empty string when that element has no name), whatever the
    other elements are, and the empty string otherwise. *)
Theorem parse_issue_first_sprint raw p :
  parse_issue raw = Ok p ->
  sprint p
  = match path raw ["fields"; "customfield_10020"] with
    | Some (PList (first :: _)) => default (PStr "") (path first ["name"])
    | _ => PStr ""
    end.
Proof. intros H. by destruct (parse_issue_paths raw p H) as (_ & _ & ?). Qed.

Lemma parse_issue_first_sprint_witness :
  exists p,
    parse_issue story = Ok p /\
    sprint p = PStr "Sprint 2" /\
    sprint p
    = match path story ["fields"; "customfield_10020"] with
      | Some (PList (first :: _)) => default (PStr "") (path first ["name"])
      | _ => PStr ""
      end.
Proof.
  eexists. split; [vm_compute; reflexivity|]. split; [reflexivity|].
  apply (parse_issue_first_sprint story). vm_compute. reflexivity.
Defined.

End ParseProps.

(** ** The summaries: tallies and their order *)

Module SummaryProps.
Import SprintReportGenerator SummaryParts Examples.

(** *** The order of strings *)

Lemma ascii_compare_lt_trans x y z :
  Ascii.compare x y = Lt -> Ascii.compare y z = Lt -> Ascii.compare x z = Lt.
Proof.
  unfold Ascii.compare. rewrite !N.compare_lt_iff. lia.
Qed.

Lemma string_compare_lt_trans a b c :
  String.compare a b = Lt -> String.compare b c = Lt ->
  String.compare a c = Lt.
Proof.
  revert b c. induction a as [|x a IH]; intros [|y b] [|z c]; simpl; try done.
  destruct (Ascii.compare x y) eqn:Hxy; [|clear IH|done].
  - apply Ascii.compare_eq_iff in Hxy as ->.
    destruct (Ascii.compare y z); [apply IH | done | done].
  - destruct (Ascii.compare y z) eqn:Hyz; [| |done].
    + apply Ascii.compare_eq_iff in Hyz as <-. by rewrite Hxy.
    + by rewrite (ascii_compare_lt_trans _ _ _ Hxy Hyz).
Qed.

Lemma ltb_trans a b c :
  String.ltb a b = true -> String.ltb b c = true -> String.ltb a c = true.
Proof.
  unfold String.ltb.
  destruct (String.compare a b) eqn:Hab; try done.
  destruct (String.compare b c) eqn:Hbc; try done.
  by rewrite (string_compare_lt_trans _ _ _ Hab Hbc).
Qed.

Lemma ltb_false_gt a b :
  String.ltb a b = false -> a <> b -> String.ltb b a = true.
Proof.
  unfold String.ltb. rewrite (String.compare_antisym a b).
  destruct (String.compare b a) eqn:Hba; simpl; try done.
  apply String.compare_eq_iff in Hba. congruence.
Qed.

Local Abbreviation increasing := (fun a b : string => String.ltb a b = true).

(** *** Sorted insertion *)

Lemma elem_of_insert_sorted x l y :
  y ∈ Str.insert_sorted x l <-> y = x \/ y ∈ l.
Proof.
  induction l as [|z l IH]; simpl.
  - rewrite list_elem_of_singleton, elem_of_nil. tauto.
  - destruct (String.ltb x z); rewrite !elem_of_cons; [tauto|].
    rewrite IH. tauto.
Qed.

Lemma insert_sorted_increasing x l :
  StronglySorted increasing l -> x ∉ l ->
  StronglySorted increasing (Str.insert_sorted x l).
Proof.
  induction 1 as [|z l Hl IH Hz]; intros Hx; simpl.
  - by repeat constructor.
  - apply not_elem_of_cons in Hx as [Hxz Hx].
    destruct (String.ltb x z) eqn:Hlt.
    + constructor; [by constructor|].
      constructor; [done|].
      eapply Forall_impl; [exact Hz|]. simpl. intros w Hw.
      by eapply ltb_trans.
    + constructor; [by apply IH|].
      apply Forall_forall. intros w [->|Hw]%elem_of_insert_sorted.
      * by apply ltb_false_gt.
      * by eapply (proj1 (Forall_forall _ _) Hz).
Qed.

Lemma sorted_increasing l :
  NoDup l ->
  StronglySorted increasing (Str.sorted l) /\
  forall y, y ∈ Str.sorted l <-> y ∈ l.
Proof.
  unfold Str.sorted. intros Hnd.
  apply (fold_left_invariant (fun acc x => Str.insert_sorted x acc)
           (fun seen acc =>
              NoDup seen ->
              StronglySorted increasing acc /\
              forall y, y ∈ acc <-> y ∈ seen)); [| |done].
  - intros _. split; [constructor | done].
  - intros seen acc x IH [Hseen [Hx _]]%NoDup_app.
    destruct (IH Hseen) as [Hs Hiff].
    split.
    + apply insert_sorted_increasing; [done|].
      rewrite Hiff. intros Hin. apply (Hx x Hin). by left.
    + intros y. rewrite elem_of_insert_sorted, elem_of_app, Hiff,
        list_elem_of_singleton. tauto.
Qed.

Lemma elem_of_insert_item x l y :
  y ∈ insert_item x l <-> y = x \/ y ∈ l.
Proof.
  induction l as [|z l IH]; simpl.
  - rewrite list_elem_of_singleton, elem_of_nil. tauto.
  - destruct (String.ltb x.1 z.1); rewrite !elem_of_cons; [tauto|].
    rewrite IH. tauto.
Qed.

Lemma insert_item_perm x l : insert_item x l ≡ₚ x :: l.
Proof.
  induction l as [|y l IH]; simpl; [done|].
  destruct (String.ltb _ _); [done|].
  rewrite IH. apply Permutation_swap.
Qed.

Lemma insert_item_increasing x l :
  StronglySorted increasing l.*1 -> x.1 ∉ l.*1 ->
  StronglySorted increasing (insert_item x l).*1.
Proof.
  induction l as [|z l IH]; intros Hl Hx; simpl.
  - by repeat constructor.
  - apply StronglySorted_inv in Hl as [Hl Hz].
    apply not_elem_of_cons in Hx as [Hxz Hx].
    destruct (String.ltb x.1 z.1) eqn:Hlt; simpl.
    + constructor; [by constructor|].
      constructor; [done|].
      eapply Forall_impl; [exact Hz|]. simpl. intros w Hw.
      by eapply ltb_trans.
    + constructor; [by apply IH|].
      apply Forall_forall.
      intros w ([k n] & -> & [->|Hw]%elem_of_insert_item)%list_elem_of_fmap.
      * by apply ltb_false_gt.
      * eapply (proj1 (Forall_forall _ _) Hz).
        apply list_elem_of_fmap. by exists (k, n).
Qed.

Lemma sorted_items_increasing (counts : list (string * nat)) :
  NoDup counts.*1 ->
  StronglySorted increasing (sorted_items counts).*1 /\
  sorted_items counts ≡ₚ counts.
Proof.
  unfold sorted_items. intros Hnd.
  apply (fold_left_invariant (fun acc x => insert_item x acc)
           (fun seen acc =>
              NoDup seen.*1 ->
              StronglySorted increasing acc.*1 /\ acc ≡ₚ seen)); [| |done].
  - intros _. split; [constructor | done].
  - intros seen acc x IH Hsx. rewrite fmap_app in Hsx.
    apply NoDup_app in Hsx as [Hseen [Hx _]].
    destruct (IH Hseen) as [Hs Hperm].
    split.
    + apply insert_item_increasing; [done|].
      rewrite Hperm. intros Hin. apply (Hx _ Hin). by left.
    + rewrite insert_item_perm, Hperm. by rewrite <- Permutation_cons_append.
Qed.

(** *** The Istio tally *)

Lemma sum_list_perm (l k : list nat) : l ≡ₚ k -> sum_list l = sum_list k.
Proof. induction 1; simpl; lia. Qed.

Lemma set_sum (counts : list (string * nat)) k v :
  sum_list (OrderedDict.set counts k v).*2
  + default 0 (OrderedDict.get counts k)
  = sum_list counts.*2 + v.
Proof.
  induction counts as [|[k0 v0] counts IH]; simpl; [lia|].
  unfold fmap in IH.
  destruct (String.eqb k0 k); simpl; lia.
Qed.

Lemma count_up_sum (counts : list (string * nat)) k :
  sum_list (count_up counts k).*2 = sum_list counts.*2 + 1.
Proof.
  unfold count_up.
  pose proof (set_sum counts k (default 0 (OrderedDict.get counts k) + 1)).
  lia.
Qed.

Lemma count_up_positive (counts : list (string * nat)) k :
  Forall (fun item => 1 <= item.2) counts ->
  Forall (fun item => 1 <= item.2) (count_up counts k).
Proof.
  intros H. apply Forall_forall. intros [k' n].
  intros [[-> ->]|Hin]%OrderedDictProps.elem_of_set; simpl; [lia|].
  by apply (proj1 (Forall_forall _ _) H (k', n)).
Qed.

Lemma service_env_tally_inv done_children :
  let tally := service_env_tally done_children in
  NoDup tally.*1 /\
  sum_list tally.*2
  = length (List.filter (has_token parenthesized) done_children) /\
  Forall (fun item => 1 <= item.2) tally.
Proof.
  unfold service_env_tally.
  apply (fold_left_invariant _
           (fun seen (tally : list (string * nat)) =>
              NoDup tally.*1 /\
              sum_list tally.*2
              = length (List.filter (has_token parenthesized) seen) /\
              Forall (fun item => 1 <= item.2) tally)).
  - split; [apply NoDup_nil_2|]. split; [done | constructor].
  - intros seen tally x (Hnd & Hsum & Hpos).
    rewrite List.filter_app, length_app. cbn [List.filter].
    unfold has_token at 2.
    destruct (Re.search parenthesized (summary x)) as [m|]; simpl;
      [|rewrite Nat.add_0_r; done].
    destruct (Str.rsplit_space _) as [|a [|b [|c l]]];
      (split; [by apply OrderedDictProps.NoDup_set_keys|];
       split; [rewrite count_up_sum; lia | by apply count_up_positive]).
Qed.

(** X19: the Istio summary has one line for each label of its tally,
    the lines in strictly increasing order of the labels; the counts of the
    lines are at least one and add up to the number of completed children
    whose summary holds a parenthesized token. Without such a child the
    summary is the sentence with the count of the completed children. *)
Theorem istio_summary_tally epic_name done_children done_count :
  let lines := sorted_items (service_env_tally done_children) in
  istio_rollout_summary epic_name done_children done_count
  = match cluster_line <$> lines with
    | _ :: _ =>
        "Completed Istio " +:+ version_str epic_name +:+ " rollout:<br>"
          +:+ String.concat "<br>" (cluster_line <$> lines)
    | [] =>
        "Completed Istio " +:+ version_str epic_name +:+ " rollout across "
          +:+ Str.of_nat done_count +:+ " clusters."
    end /\
  StronglySorted increasing lines.*1 /\
  Forall (fun item => 1 <= item.2) lines /\
  sum_list lines.*2
  = length (List.filter (has_token parenthesized) done_children).
Proof.
  intros lines.
  destruct (service_env_tally_inv done_children) as (Hnd & Hsum & Hpos).
  destruct (sorted_items_increasing _ Hnd) as [Hsorted Hperm].
  split; [reflexivity|]. split; [done|]. split.
  - subst lines. by rewrite Hperm.
  - subst lines. rewrite <- Hsum. apply sum_list_perm. by rewrite Hperm.
Qed.

(** *** The environments of the ArgoCD summary *)

Lemma elem_of_env_list done_children e :
  e ∈ env_list done_children <->
  exists c m, c ∈ done_children /\
    Re.search bracketed (summary c) = Some m /\ e = Re.group m 1.
Proof.
  revert e. unfold env_list.
  apply (fold_left_invariant _
           (fun seen (envs : list string) => forall e, e ∈ envs <->
              exists c m, c ∈ seen /\
                Re.search bracketed (summary c) = Some m /\
                e = Re.group m 1)).
  - intros e. split; [by intros ?%elem_of_nil|].
    by intros (c & m & ?%elem_of_nil & _).
  - intros seen envs x IH e.
    destruct (Re.search bracketed (summary x)) as [m|] eqn:Hm.
    + rewrite elem_of_app, list_elem_of_singleton, IH. split.
      * intros [(c & m' & ? & ? & ?)| ->].
        -- exists c, m'. split; [apply elem_of_app; by left | done].
        -- exists x, m. split; [apply elem_of_app; right; by left | done].
      * intros (c & m' & [Hc| ->%list_elem_of_singleton]%elem_of_app & Hs & ->).
        -- left. by exists c, m'.
        -- right. congruence.
    + rewrite IH. split.
      * intros (c & m' & ? & ? & ?).
        exists c, m'. split; [apply elem_of_app; by left | done].
      * intros (c & m' & [Hc| ->%list_elem_of_singleton]%elem_of_app & Hs & ->);
          [by exists c, m' | congruence].
Qed.

(** X20: the environments that the ArgoCD summary names are the
    bracket tokens of the summaries of the completed children, each once, in
    strictly increasing order; the summary is the sentence for one
    environment, for several, or for none, according to their number. *)
Theorem argocd_summary_environments epic_name done_children :
  let envs := unique_envs done_children in
  argocd_summary epic_name done_children
  = match envs with
    | [] => "Completed ArgoCD migration for " +:+ component epic_name +:+ "."
    | [env] =>
        "Migrated " +:+ component epic_name +:+ " to ArgoCD in " +:+ env
          +:+ "."
    | _ =>
        "Migrated " +:+ component epic_name +:+ " to ArgoCD across "
          +:+ String.concat ", " envs +:+ " environments."
    end /\
  StronglySorted increasing envs /\
  forall e, e ∈ envs <->
    exists c m, c ∈ done_children /\
      Re.search bracketed (summary c) = Some m /\ e = Re.group m 1.
Proof.
  intros envs.
  destruct (sorted_increasing (remove_dups (env_list done_children))
              (NoDup_remove_dups _)) as [Hsorted Hiff].
  split; [|split; [done|]].
  - unfold argocd_summary. fold (env_list done_children).
    fold (component epic_name).
    subst envs. unfold unique_envs.
    destruct (env_list done_children) as [|e0 l] eqn:Hl; [done|].
    destruct (Str.sorted (remove_dups (e0 :: l))) as [|a [|b r]];
      [exfalso | done | done].
    apply (elem_of_nil e0), Hiff, elem_of_remove_dups. by left.
  - intros e. subst envs. unfold unique_envs.
    by rewrite Hiff, elem_of_remove_dups, elem_of_env_list.
Qed.



End SummaryProps.

(** ** The rows of the standalone issues *)

Module RowProps.
Import JiraClient SprintReportGenerator Examples.

Lemma table_rows_by_priority_witness :
  exists a b,
    epic_entries_sorted
      (fetch_sprint_data [story_T2; task_S1; story_T9] fetch_nothing) !! 0
    = Some a /\
    epic_entries_sorted
      (fetch_sprint_data [story_T2; task_S1; story_T9] fetch_nothing) !! 1
    = Some b /\
    0 < 1 /\
    Entry.epic_key a = "E-9" /\ Entry.epic_key b = "E-1" /\
    get_sort_order a <= get_sort_order b.
Proof.
  eexists _, _. split; [vm_compute; reflexivity|].
  split; [vm_compute; reflexivity|]. split; [lia|].
  split; [reflexivity|]. split; [reflexivity|].
  apply (TableProps.table_rows_by_priority
           (fetch_sprint_data [story_T2; task_S1; story_T9] fetch_nothing)
           0 1); [vm_compute; reflexivity | vm_compute; reflexivity | lia].
Defined.





End RowProps.

(** ** The configuration and the client *)

Module ConfigProps.
Import Config.

Lemma require_all_ok names v :
  require_all names v = Returns tt <->
  forall n, n ∈ names -> contains n v = Returns true.
Proof.
  induction names as [|name names IH]; simpl.
  - split; [by intros _ n ?%elem_of_nil | done].
  - destruct (contains name v) as [[|]|e] eqn:Hname; simpl.
    + rewrite IH. split.
      * intros H n [->|?]%elem_of_cons; [done | by apply H].
      * intros H n Hn. apply H. by right.
    + split; [done|]. intros H. specialize (H name). rewrite Hname in H.
      by discriminate H; left.
    + split; [done|]. intros H. specialize (H name). rewrite Hname in H.
      by discriminate H; left.
Qed.

Lemma contains_dict d k :
  contains k (PDict d) = Returns true <-> is_Some (dict_lookup d k).
Proof.
  simpl. destruct (dict_lookup d k) as [x|].
  - split; [by eexists | done].
  - split; [done | by intros [? ?]].
Qed.

(** X23: the validation accepts a configuration exactly when it is a
    mapping with the sections [sprint_info], [jira] and [output], the four
    sprint fields are in [sprint_info], and [jira] is a mapping with a
    [server_url] and an [issue_navigator_url] whose value is true. *)
Theorem validate_config_accepts config :
  validate_config config = Returns tt <->
  exists d sprint_info j url,
    config = PDict d /\
    dict_lookup d "sprint_info" = Some sprint_info /\
    dict_lookup d "jira" = Some (PDict j) /\
    is_Some (dict_lookup d "output") /\
    (forall f, f ∈ required_sprint_fields ->
               contains f sprint_info = Returns true) /\
    is_Some (dict_lookup j "server_url") /\
    dict_lookup j "issue_navigator_url" = Some url /\
    truthy url = true.
Proof.
  unfold validate_config. split.
  - destruct (require_all required_sections config) as [[]|e] eqn:Hsec;
      [|done].
    cbn [mbind outcome_bind].
    destruct config as [| | | | |d]; try done.
    cbn [get mbind outcome_bind].
    pose proof (proj1 (require_all_ok _ _) Hsec) as Hin.
    assert (Hs : is_Some (dict_lookup d "sprint_info"))
      by (apply contains_dict, Hin; set_solver).
    assert (Hj : is_Some (dict_lookup d "jira"))
      by (apply contains_dict, Hin; set_solver).
    assert (Ho : is_Some (dict_lookup d "output"))
      by (apply contains_dict, Hin; set_solver).
    destruct Hs as [sprint_info Hs]. destruct Hj as [jira_config Hj].
    unfold dict_get. rewrite Hs, Hj.
    destruct (require_all required_sprint_fields sprint_info) as [[]|e]
      eqn:Hfields; [|done].
    cbn [mbind outcome_bind].
    destruct jira_config as [| | |s|l|j]; try done.
    + simpl. destruct (Str.contains _ _); [|done]. simpl.
      by destruct (Str.contains _ _).
    + simpl. destruct (existsb _ _); [|done]. simpl.
      by destruct (existsb _ _).
    + simpl.
      destruct (dict_lookup j "server_url") as [server|] eqn:Hserver; [|done].
      simpl.
      destruct (dict_lookup j "issue_navigator_url") as [url|] eqn:Hurl;
        [|done].
      simpl. destruct (truthy url) eqn:Ht; [|done]. intros _.
      exists d, sprint_info, j, url.
      do 4 (split; [done|]). split; [by apply require_all_ok|].
      split; [by eexists | by split].
  - intros (d & sprint_info & j & url & -> & Hs & Hj & Ho & Hfields
            & [server Hserver] & Hurl & Ht).
    assert (Hsec : require_all required_sections (PDict d) = Returns tt).
    { apply require_all_ok. intros n Hn. apply contains_dict.
      unfold required_sections in Hn.
      repeat (apply elem_of_cons in Hn as [->|Hn]);
        [by eexists | by eexists | done | by apply elem_of_nil in Hn]. }
    rewrite Hsec. cbn [get mbind outcome_bind]. unfold dict_get.
    rewrite Hs, Hj, (proj2 (require_all_ok _ _) Hfields).
    cbn [contains subscript mbind outcome_bind negb].
    rewrite Hserver. cbn [contains subscript mbind outcome_bind negb].
    rewrite Hurl. cbn [contains subscript mbind outcome_bind negb].
    by rewrite Ht.
Qed.

Lemma rev_reverse {A : Type} (l : list A) : rev l = reverse l.
Proof. unfold reverse. apply List.rev_alt. Qed.

Lemma lstrip_slash_spec l :
  exists n,
    l = replicate n "/"%char ++ lstrip_slash l /\
    head (lstrip_slash l) <> Some "/"%char.
Proof.
  induction l as [|c l (n & Hl & Hhead)]; simpl.
  - by exists 0.
  - destruct (Ascii.eqb_spec c "/") as [->|Hne].
    + exists (S n). split; [simpl; by f_equal | done].
    + exists 0. split; [done|]. simpl. congruence.
Qed.

(** X24: a client is created only with a server address that is a
    string, and with an email and a token that are not empty, an argument
    being preferred to the environment unless it is empty; the address of
    the client is the given one without the slashes at its end. *)
Theorem init_returns url email_arg token_arg env_email env_token c :
  init url email_arg token_arg env_email env_token = Returns c ->
  exists s n,
    url = PStr s /\
    list_ascii_of_string s
    = list_ascii_of_string (server_url c) ++ replicate n "/"%char /\
    last (list_ascii_of_string (server_url c)) <> Some "/"%char /\
    or_env email_arg env_email = Some (email c) /\ email c <> "" /\
    or_env token_arg env_token = Some (api_token c) /\ api_token c <> "".
Proof.
  unfold init. destruct url as [| | |s| |]; try done.
  destruct (or_env email_arg env_email) as [e|]; [|done].
  destruct (or_env token_arg env_token) as [t|]; [|done].
  destruct (Str.truthy e) eqn:He; [|done].
  destruct (Str.truthy t) eqn:Ht; [|done].
  simpl. intros [= <-]. simpl.
  destruct (lstrip_slash_spec (rev (list_ascii_of_string s)))
    as (n & Hrev & Hhead).
  exists s, n. split; [done|].
  unfold rstrip_slash. rewrite list_ascii_of_string_of_list_ascii.
  split; [|split].
  - rewrite <- (rev_involutive (list_ascii_of_string s)) at 1.
    rewrite Hrev at 1. rewrite rev_app_distr. f_equal.
    rewrite !rev_reverse. apply reverse_replicate.
  - by rewrite rev_reverse, last_reverse.
  - unfold Str.truthy in He, Ht.
    apply negb_true_iff in He, Ht. apply String.eqb_neq in He, Ht. done.
Qed.

Lemma init_returns_witness :
  let c := {| server_url := "https://jira.example.com";
              email := "me@example.com"; api_token := "secret" |} in
  init (PStr "https://jira.example.com//") (Some "") None
    (Some "me@example.com") (Some "secret") = Returns c /\
  exists s n,
    PStr "https://jira.example.com//" = PStr s /\
    list_ascii_of_string s
    = list_ascii_of_string (server_url c) ++ replicate n "/"%char /\
    last (list_ascii_of_string (server_url c)) <> Some "/"%char /\
    or_env (Some "") (Some "me@example.com") = Some (email c) /\
    email c <> "" /\
    or_env None (Some "secret") = Some (api_token c) /\ api_token c <> "".
Proof.
  split; [reflexivity|].
  apply (init_returns (PStr "https://jira.example.com//") (Some "") None
           (Some "me@example.com") (Some "secret")).
  reflexivity.
Defined.

End ConfigProps.

(** ** The rows of the epics *)

Module EpicRowProps.
Import JiraClient SprintReportGenerator.

(** X25: no two rows of epics of the report have the same key. *)
Theorem epic_rows_distinct parsed_issues fetch_epics :
  let grouped_data := fetch_sprint_data parsed_issues fetch_epics in
  NoDup (Entry.epic_key
           <$> (epic_entry (default ∅ (epic_details grouped_data))
                  <$> epics grouped_data)).
Proof.
  cbn zeta. rewrite <- list_fmap_compose.
  unfold fetch_sprint_data, reconcile. cbn [epics epic_details].
  pose proof (ReportProps.filtered_epics_NoDup parsed_issues
                (epics (group_issues_by_parent parsed_issues))) as Hnd.
  erewrite list_fmap_ext; [exact Hnd|].
  by intros i [k g] _.
Qed.

End EpicRowProps.
